(** * signal_generator: delay calculation and feeder loops

    A shallow embedding of [main.c] in its two variants: the continuous
    generator (first translation unit) and the button-gated generator
    (second translation unit).

    - C [float] is IEEE-754 binary32 with round-to-nearest-even, taken from
      the Standard Library's [SpecFloat] at precision 24 and [emax = 128].
    - [uint32_t] is a [Z] in [0, 2^32) with the wrap-around written out.
    - A cast [(uint32_t)f] truncates toward zero; where C leaves the cast
      undefined (NaN, infinities, integral part outside [0, 2^32)) the
      embedding returns [None].
    - The two [main] functions are labelled transition systems over the
      calls they make into the SDK. *)

From Stdlib Require Import ZArith Bool List Lia SpecFloat.
From Stdlib Require Import QArith Qround.
From Stdlib Require Import Reals Lra.
Import ListNotations.

Local Open Scope Z_scope.

(** ** Option monad for computations that may hit undefined behaviour *)

Definition obind {A B : Type} (x : option A) (k : A -> option B) : option B :=
  match x with
  | Some a => k a
  | None => None
  end.

Notation "x <- e ;; k" := (obind e (fun x => k))
  (at level 61, e at next level, right associativity).

(** ** binary32 *)

Definition float32 : Type := spec_float.

Module F32.

Definition prec : Z := 24.
Definition emax : Z := 128.

Definition mul : float32 -> float32 -> float32 := SFmul prec emax.
Definition div : float32 -> float32 -> float32 := SFdiv prec emax.
Definition sub : float32 -> float32 -> float32 := SFsub prec emax.

(** An integer literal, or an integer converted to [float]. *)
Definition of_Z (n : Z) : float32 := binary_normalize prec emax n 0 false.

(** Integral part of a finite float, rounding toward zero. *)
Definition trunc (x : float32) : option Z :=
  match x with
  | S754_zero _ => Some 0
  | S754_finite s m e =>
      let mag := if 0 <=? e then Zpos m * 2 ^ e else Zpos m / 2 ^ (- e) in
      Some (if s then - mag else mag)
  | S754_infinity _ => None
  | S754_nan => None
  end.

(** The cast [(uint32_t)x]. *)
Definition to_uint32 (x : float32) : option Z :=
  n <- trunc x ;;
  if (0 <=? n) && (n <? 2 ^ 32) then Some n else None.

(** The rational denoted by a finite float. *)
Definition to_Q (x : float32) : option Q :=
  match x with
  | S754_zero _ => Some 0%Q
  | S754_finite s m e =>
      let mag := if 0 <=? e then inject_Z (Zpos m * 2 ^ e)
                 else Qmake (Zpos m) (Z.to_pos (2 ^ (- e))) in
      Some (if s then Qopp mag else mag)
  | S754_infinity _ => None
  | S754_nan => None
  end.

End F32.

(** ** uint32_t arithmetic *)

Definition u32_mod : Z := 2 ^ 32.

Definition sub32 (a b : Z) : Z := (a - b) mod u32_mod.

(** ** Signal configuration (identical in both translation units) *)

(** [1000.0f] *)
Definition FREQUENCY_HZ : float32 := S754_finite false 16384000 (-14).
(** [5.0f] *)
Definition PULSE_WIDTH_US : float32 := S754_finite false 10485760 (-21).
(** [5.0f] *)
Definition PHASE_SHIFT_US : float32 := S754_finite false 10485760 (-21).

(** Literals used by the delay calculations. *)

(** [1.0f] *)
Definition lit_1 : float32 := S754_finite false 8388608 (-23).
(** [1e6f] *)
Definition lit_1e6 : float32 := S754_finite false 16000000 (-4).
(** [1e-6f]: the binary32 value nearest to 10^-6. *)
Definition lit_1em6 : float32 := S754_finite false 8796093 (-43).
(** [12.5f], the divider chosen in [main]. *)
Definition lit_12_5 : float32 := S754_finite false 13107200 (-20).

(** The four values handed to the PIO state machine. *)
Record DelaySet : Type := mkDelaySet {
  delay_A : Z;
  delay_B : Z;
  delay_C : Z;
  delay_D : Z
}.

(** The four per-event cycle counts before the overhead is taken off. *)
Record Cycles : Type := mkCycles {
  cycles_A : Z;
  cycles_B : Z;
  cycles_C : Z;
  cycles_D : Z
}.

(** [c > 4 ? c - 4 : 0] on [uint32_t]. *)
Definition sub_overhead (c : Z) : Z :=
  if 4 <? c then sub32 c 4 else 0.

Definition delays_of_cycles (c : Cycles) : DelaySet :=
  {| delay_A := sub_overhead (cycles_A c);
     delay_B := sub_overhead (cycles_B c);
     delay_C := sub_overhead (cycles_C c);
     delay_D := sub_overhead (cycles_D c) |}.

(** ** Memory for the four out-parameters *)

Definition addr : Type := nat.
Definition mem : Type := addr -> Z.

Definition store (m : mem) (p : addr) (v : Z) : mem :=
  fun q => if Nat.eqb q p then v else m q.

(** The four assignments [*delay_A = ...; ... *delay_D = ...;] in order. *)
Definition store_delays (pA pB pC pD : addr) (d : DelaySet) (m : mem) : mem :=
  store (store (store (store m pA (delay_A d)) pB (delay_B d)) pC (delay_C d))
        pD (delay_D d).

(** Calls into the SDK that either variant of [main] makes once the engine
    is configured, with the value the call returned where it has one. *)
Inductive event : Type :=
| EvEnable (on : bool)     (* pio_sm_set_enabled(pio, sm, on) *)
| EvPut (v : Z)            (* pio_sm_put_blocking(pio, sm, v) returned *)
| EvGpio (level : bool)    (* gpio_get(BUTTON_PIN) returned level *)
| EvTime (t : Z)           (* get_absolute_time() returned t microseconds *)
| EvTight.                 (* tight_loop_contents() *)

(** The values pushed to the TX FIFO along a trace, in order. *)
Fixpoint puts (tr : list event) : list Z :=
  match tr with
  | [] => []
  | EvPut v :: tr' => v :: puts tr'
  | _ :: tr' => puts tr'
  end.

Definition quadruple (d : DelaySet) : list Z :=
  [delay_A d; delay_B d; delay_C d; delay_D d].

Definition is_enable (e : event) : bool :=
  match e with
  | EvEnable _ => true
  | _ => false
  end.

(** ** Continuous variant (first translation unit) *)

Module Continuous.

(** Lines 62-74: the direct formula, each event converted on its own. *)
Definition cycles (sys_clk_hz pio_clk_div : float32) : option Cycles :=
  let pio_freq_hz := F32.div sys_clk_hz pio_clk_div in
  let period_us := F32.div lit_1e6 FREQUENCY_HZ in
  let duration_D_us :=
    F32.sub (F32.sub (F32.sub period_us PULSE_WIDTH_US) PHASE_SHIFT_US)
            PULSE_WIDTH_US in
  cA <- F32.to_uint32 (F32.mul PULSE_WIDTH_US (F32.div pio_freq_hz lit_1e6)) ;;
  cB <- F32.to_uint32 (F32.mul PHASE_SHIFT_US (F32.div pio_freq_hz lit_1e6)) ;;
  cC <- F32.to_uint32 (F32.mul PULSE_WIDTH_US (F32.div pio_freq_hz lit_1e6)) ;;
  cD <- F32.to_uint32 (F32.mul duration_D_us (F32.div pio_freq_hz lit_1e6)) ;;
  Some (mkCycles cA cB cC cD).

(** Lines 56-83, as the four values it stores. *)
Definition calculate_delays (sys_clk_hz pio_clk_div : float32)
  : option DelaySet :=
  c <- cycles sys_clk_hz pio_clk_div ;;
  Some (delays_of_cycles c).

(** Lines 56-83, writing through the four pointers. *)
Definition calculate_delays_mem (sys_clk_hz pio_clk_div : float32)
    (pA pB pC pD : addr) (m : mem) : option mem :=
  d <- calculate_delays sys_clk_hz pio_clk_div ;;
  Some (store_delays pA pB pC pD d m).

(** Control points of [main] from line 35 on. [Return] stands for the end
    of the function body after the loop. *)
Inductive pc : Type :=
| Enable
| PutA
| PutB
| PutC
| PutD
| Return.

Section Main.
Variable d : DelaySet.

Inductive step : pc -> event -> pc -> Prop :=
| step_enable : step Enable (EvEnable true) PutA
| step_put_A : step PutA (EvPut (delay_A d)) PutB
| step_put_B : step PutB (EvPut (delay_B d)) PutC
| step_put_C : step PutC (EvPut (delay_C d)) PutD
| step_put_D : step PutD (EvPut (delay_D d)) PutA.

Inductive exec : pc -> list event -> pc -> Prop :=
| exec_nil : forall p, exec p [] p
| exec_cons : forall p e p1 tr p2,
    step p e p1 -> exec p1 tr p2 -> exec p (e :: tr) p2.

(** How many values of the current quadruple are already pushed. *)
Definition phase (p : pc) : nat :=
  match p with
  | PutB => 1
  | PutC => 2
  | PutD => 3
  | _ => 0
  end.
End Main.

(** [main] up to line 32: the system clock read as [uint32_t], converted
    to [float] for the call, and the divider 12.5. *)
Definition main_delays (clk_sys_hz : Z) : option DelaySet :=
  calculate_delays (F32.of_Z clk_sys_hz) lit_12_5.

End Continuous.

(** ** Gated variant (second translation unit) *)

Module Gated.

(** [5 * 1000 * 1000], as [uint64_t]. *)
Definition SIGNAL_DURATION_US : Z := 5 * 1000 * 1000.

Definition u64_mod : Z := 2 ^ 64.

(** SDK: [absolute_time_diff_us(from, to)] is [(int64_t)(to - from)] on
    the two 64-bit microsecond counts. *)
Definition absolute_time_diff_us (from to : Z) : Z :=
  let w := (to - from) mod u64_mod in
  if w <? 2 ^ 63 then w else w - u64_mod.

(** Line 184: the [int64_t] difference is converted to [uint64_t] for the
    comparison with [SIGNAL_DURATION_US]. *)
Definition within_duration (start now : Z) : bool :=
  (absolute_time_diff_us start now) mod u64_mod <? SIGNAL_DURATION_US.

(** Lines 219-223: the three casts. *)
Record PioCycles : Type := mkPioCycles {
  total_pio_cycles : Z;
  pulse_width_cycles : Z;
  phase_shift_cycles : Z
}.

Definition pio_cycles (sys_clk_hz pio_clk_div : float32) : option PioCycles :=
  let pio_clk_hz := F32.div sys_clk_hz pio_clk_div in
  let period_s := F32.div lit_1 FREQUENCY_HZ in
  total <- F32.to_uint32 (F32.mul period_s pio_clk_hz) ;;
  pw <- F32.to_uint32 (F32.mul (F32.mul PULSE_WIDTH_US lit_1em6) pio_clk_hz) ;;
  ps <- F32.to_uint32 (F32.mul (F32.mul PHASE_SHIFT_US lit_1em6) pio_clk_hz) ;;
  Some (mkPioCycles total pw ps).

(** Lines 226-229: D is what is left of the period, in [uint32_t]. *)
Definition event_durations (c : PioCycles) : Cycles :=
  let event_A_duration := pulse_width_cycles c in
  let event_B_duration := phase_shift_cycles c in
  let event_C_duration := pulse_width_cycles c in
  let event_D_duration :=
    sub32 (sub32 (sub32 (total_pio_cycles c) event_A_duration)
                 event_B_duration) event_C_duration in
  mkCycles event_A_duration event_B_duration event_C_duration
           event_D_duration.

Definition cycles (sys_clk_hz pio_clk_div : float32) : option Cycles :=
  c <- pio_cycles sys_clk_hz pio_clk_div ;;
  Some (event_durations c).

(** Lines 215-238, as the four values it stores. *)
Definition calculate_delays (sys_clk_hz pio_clk_div : float32)
  : option DelaySet :=
  c <- cycles sys_clk_hz pio_clk_div ;;
  Some (delays_of_cycles c).

(** Lines 215-238, writing through the four pointers. *)
Definition calculate_delays_mem (sys_clk_hz pio_clk_div : float32)
    (pA pB pC pD : addr) (m : mem) : option mem :=
  d <- calculate_delays sys_clk_hz pio_clk_div ;;
  Some (store_delays pA pB pC pD d m).

(** Control points of [main] from line 171 on; the feeder states carry
    [start_time]. [Return] stands for the end of the function body. *)
Inductive pc : Type :=
| Poll                    (* 174: if (!gpio_get(BUTTON_PIN)) *)
| Enabling                (* 178 *)
| StartTimer              (* 181 *)
| LoopTest (start_time : Z)  (* 184: loop condition *)
| PutA (start_time : Z)   (* 186 *)
| PutB (start_time : Z)   (* 187 *)
| PutC (start_time : Z)   (* 188 *)
| PutD (start_time : Z)   (* 189 *)
| Disabling               (* 193 *)
| WaitRelease             (* 196: loop condition *)
| SpinRelease             (* 198 *)
| SpinIdle                (* 202 *)
| Return.

Definition is_time (t : Z) : Prop := 0 <= t < u64_mod.

Section Main.
Variable d : DelaySet.

Inductive step : pc -> event -> pc -> Prop :=
| step_pressed : step Poll (EvGpio false) Enabling
| step_idle : step Poll (EvGpio true) SpinIdle
| step_enable : step Enabling (EvEnable true) StartTimer
| step_start : forall t (Ht : is_time t),
    step StartTimer (EvTime t) (LoopTest t)
| step_feed : forall s t (Ht : is_time t) (Hw : within_duration s t = true),
    step (LoopTest s) (EvTime t) (PutA s)
| step_elapsed : forall s t (Ht : is_time t) (Hw : within_duration s t = false),
    step (LoopTest s) (EvTime t) Disabling
| step_put_A : forall s, step (PutA s) (EvPut (delay_A d)) (PutB s)
| step_put_B : forall s, step (PutB s) (EvPut (delay_B d)) (PutC s)
| step_put_C : forall s, step (PutC s) (EvPut (delay_C d)) (PutD s)
| step_put_D : forall s, step (PutD s) (EvPut (delay_D d)) (LoopTest s)
| step_disable : step Disabling (EvEnable false) WaitRelease
| step_held : step WaitRelease (EvGpio false) SpinRelease
| step_spin_release : step SpinRelease EvTight WaitRelease
| step_released : step WaitRelease (EvGpio true) SpinIdle
| step_spin_idle : step SpinIdle EvTight Poll.

Inductive exec : pc -> list event -> pc -> Prop :=
| exec_nil : forall p, exec p [] p
| exec_cons : forall p e p1 tr p2,
    step p e p1 -> exec p1 tr p2 -> exec p (e :: tr) p2.

Definition phase (p : pc) : nat :=
  match p with
  | PutB _ => 1
  | PutC _ => 2
  | PutD _ => 3
  | _ => 0
  end.

(** One pass of the feeder loop body after a time check that read [t]. *)
Definition round_trip (t : Z) : list event :=
  [EvTime t; EvPut (delay_A d); EvPut (delay_B d);
   EvPut (delay_C d); EvPut (delay_D d)].
End Main.

(** [main] up to line 168: as in the continuous variant. *)
Definition main_delays (clk_sys_hz : Z) : option DelaySet :=
  calculate_delays (F32.of_Z clk_sys_hz) lit_12_5.

End Gated.

(** * Vocabulary of the properties *)

(** What the ternary computes on a [uint32_t]: no wrap-around occurs. *)
Definition clamped (raw out : Z) : Prop :=
  (4 < raw -> out = raw - 4) /\
  (raw <= 4 -> out = 0) /\
  0 <= out /\
  (out = 0 <-> raw <= 4).

Definition clamped4 (c : Cycles) (d : DelaySet) : Prop :=
  clamped (cycles_A c) (delay_A d) /\
  clamped (cycles_B c) (delay_B d) /\
  clamped (cycles_C c) (delay_C d) /\
  clamped (cycles_D c) (delay_D d).

Definition in_u32 (c : Cycles) : Prop :=
  0 <= cycles_A c < u32_mod /\
  0 <= cycles_B c < u32_mod /\
  0 <= cycles_C c < u32_mod /\
  0 <= cycles_D c < u32_mod.

(** The last step of [binary_round_aux]: choose zero, a finite float or an
    infinity from the rounded mantissa and its exponent. *)
Definition pack (s : bool) (m e : Z) : float32 :=
  match m with
  | Z0 => S754_zero s
  | Zpos p => if e <=? F32.emax - F32.prec then S754_finite s p e else S754_infinity s
  | Zneg _ => S754_nan
  end.

Definition fexp32 (e : Z) : Z := fexp F32.prec F32.emax e.

Definition F2R (m e : Z) : R := (IZR m * powerRZ 2 e)%R.

(** Absolute value of a float; 0 for infinities and NaN. *)
Definition magnitude (x : float32) : R :=
  match x with
  | S754_finite _ m e => F2R (Zpos m) e
  | _ => 0%R
  end.

(** Smallest positive binary32 value, 2^-149. *)
Definition eta : R := powerRZ 2 (-149).

Inductive signed_finite (s : bool) : float32 -> Prop :=
| sf_zero : signed_finite s (S754_zero s)
| sf_finite : forall m e, signed_finite s (S754_finite s m e).

(** The clock readings along a trace. *)
Fixpoint times (tr : list event) : list Z :=
  match tr with
  | [] => []
  | EvTime t :: tr' => t :: times tr'
  | _ :: tr' => times tr'
  end.

(** A monotonic clock source: no reading is below an earlier one. *)
Fixpoint monotone (l : list Z) : Prop :=
  match l with
  | [] => True
  | t :: l' => Forall (fun u => t <= u) l' /\ monotone l'
  end.

Definition no_enable (tr : list event) : bool :=
  forallb (fun e => negb (is_enable e)) tr.

(** The pushes still owed to the quadruple in progress at a feeder state,
    with the session's [start_time]. *)
Definition pending (d : DelaySet) (p : Gated.pc) : option (Z * list event) :=
  match p with
  | Gated.LoopTest s => Some (s, [])
  | Gated.PutA s =>
      Some (s, [EvPut (delay_A d); EvPut (delay_B d);
                EvPut (delay_C d); EvPut (delay_D d)])
  | Gated.PutB s =>
      Some (s, [EvPut (delay_B d); EvPut (delay_C d); EvPut (delay_D d)])
  | Gated.PutC s => Some (s, [EvPut (delay_C d); EvPut (delay_D d)])
  | Gated.PutD s => Some (s, [EvPut (delay_D d)])
  | _ => None
  end.

(** Rounding to the nearest integer. *)
Definition round_Q (q : Q) : Z := Qfloor (q + (1 # 2))%Q.

(** The period in engine cycles as the specification words it,
    [round(period_us * tick_freq_hz / 1e6)] with [period_us = 1e6 /
    frequency_hz] and [tick_freq_hz = sys_clk_hz / divider], computed
    exactly over the rationals. *)
Definition spec_period_cycles (sys_clk_hz pio_clk_div : float32)
  : option Z :=
  sys <- F32.to_Q sys_clk_hz ;;
  dv <- F32.to_Q pio_clk_div ;;
  fr <- F32.to_Q FREQUENCY_HZ ;;
  let period_us := (1000000 / fr)%Q in
  let tick_freq_hz := (sys / dv)%Q in
  Some (round_Q (period_us * tick_freq_hz / 1000000)%Q).

(** The configuration [main] runs with on a 125 MHz system clock, and the
    delays both variants then compute. *)
Definition clk_sys_default : float32 := F32.of_Z 125000000.

Definition default_delays : DelaySet :=
  {| delay_A := 46; delay_B := 46; delay_C := 46; delay_D := 9846 |}.

(** The SignalSpec invariant [2 * pulse_width_us + phase_shift_us <
    period_us] with [period_us = 1e6 / frequency_hz] and
    [frequency_hz > 0], over the rationals. *)
Definition signal_spec_invariant (frequency_hz pulse_width_us phase_shift_us : float32)
  : Prop :=
  exists fr pw ps,
    F32.to_Q frequency_hz = Some fr /\
    F32.to_Q pulse_width_us = Some pw /\
    F32.to_Q phase_shift_us = Some ps /\
    (0 < fr)%Q /\
    (2 * pw + ps < 1000000 / fr)%Q.

(** ** Vocabulary of the further properties *)

(** Whether the state machine runs after a trace that started with it in
    state [on]: the argument of the last [pio_sm_set_enabled]. *)
Fixpoint engine_on_from (on : bool) (tr : list event) : bool :=
  match tr with
  | [] => on
  | EvEnable b :: tr' => engine_on_from b tr'
  | _ :: tr' => engine_on_from on tr'
  end.

(** The state machine is disabled when [main] starts. *)
Definition engine_on (tr : list event) : bool := engine_on_from false tr.

(** Whether the state machine runs at a control point of the gated
    [main]: from after line 178 until line 193 has executed. *)
Definition gated_enabled (p : Gated.pc) : bool :=
  match p with
  | Gated.StartTimer | Gated.LoopTest _ | Gated.PutA _ | Gated.PutB _
  | Gated.PutC _ | Gated.PutD _ | Gated.Disabling => true
  | _ => false
  end.

(** The state the engine must be in for a call to be made by the gated
    [main]: pushes and clock reads need it running, button polls and idle
    spins need it stopped, and enabling or disabling must change it. *)
Definition engine_before (e : event) : bool :=
  match e with
  | EvPut _ => true
  | EvTime _ => true
  | EvGpio _ => false
  | EvTight => false
  | EvEnable b => negb b
  end.

Definition is_put (e : event) : bool :=
  match e with
  | EvPut _ => true
  | _ => false
  end.

(** Two events are the same SDK call with the same arguments; what the
    call returned (the button level, the time, any 64-bit count of
    microseconds) may differ. *)
Definition same_call (e e' : event) : Prop :=
  match e, e' with
  | EvEnable b, EvEnable b' => b = b'
  | EvPut v, EvPut v' => v = v'
  | EvGpio _, EvGpio _ => True
  | EvTime _, EvTime t' => Gated.is_time t'
  | EvTight, EvTight => True
  | _, _ => False
  end.

(** A clock that has advanced between any two readings. *)
Fixpoint increasing (l : list Z) : Prop :=
  match l with
  | [] => True
  | t :: l' => Forall (fun u => t < u) l' /\ increasing l'
  end.

(** Engine cycles of one emitted period: each phase lasts its delay plus
    the four cycles of overhead (comment at lines 77-78). *)
Definition emitted_period (d : DelaySet) : Z :=
  (delay_A d + 4) + (delay_B d + 4) + (delay_C d + 4) + (delay_D d + 4).

(** * Properties *)

(** ** Literals and the default configuration *)

(** Each literal is the binary32 value the C compiler gives it: the
    integers are exact, [1e-6f] is the correctly rounded quotient
    1 / 10^6, and [12.5f] is 25 / 2. *)
Lemma literals_correct :
  F32.of_Z 1000 = FREQUENCY_HZ /\
  F32.of_Z 5 = PULSE_WIDTH_US /\
  F32.of_Z 5 = PHASE_SHIFT_US /\
  F32.of_Z 1 = lit_1 /\
  F32.of_Z 1000000 = lit_1e6 /\
  F32.div lit_1 lit_1e6 = lit_1em6 /\
  F32.div (F32.of_Z 25) (F32.of_Z 2) = lit_12_5.
Proof. repeat split; vm_compute; reflexivity. Qed.

(** Both [main] functions compute the default delays on a 125 MHz
    system clock. *)
Lemma main_delays_default :
  Continuous.main_delays 125000000 = Some default_delays /\
  Gated.main_delays 125000000 = Some default_delays.
Proof. split; vm_compute; reflexivity. Qed.

(** ** Casts and the overhead correction *)

Lemma obind_Some {A B : Type} (x : option A) (k : A -> option B) (b : B) :
  obind x k = Some b -> exists a, x = Some a /\ k a = Some b.
Proof.
  destruct x as [a|]; simpl; intros H; [exists a; split; [reflexivity|exact H] | discriminate].
Qed.

Lemma to_uint32_range (x : float32) (n : Z) :
  F32.to_uint32 x = Some n -> 0 <= n < u32_mod.
Proof.
  unfold F32.to_uint32. intros H.
  apply obind_Some in H. destruct H as [k [_ H]].
  destruct (0 <=? k) eqn:H0; destruct (k <? 2 ^ 32) eqn:H1;
    simpl in H; try discriminate.
  injection H as <-. unfold u32_mod. lia.
Qed.

Lemma sub32_range (a b : Z) : 0 <= sub32 a b < u32_mod.
Proof. unfold sub32. apply Z.mod_pos_bound. reflexivity. Qed.

Lemma sub_overhead_clamped (c : Z) :
  0 <= c < u32_mod -> clamped c (sub_overhead c).
Proof.
  intros Hc. unfold clamped, sub_overhead, sub32.
  destruct (4 <? c) eqn:E.
  - apply Z.ltb_lt in E.
    rewrite Z.mod_small by lia. lia.
  - apply Z.ltb_ge in E. lia.
Qed.

Lemma delays_of_cycles_clamped (c : Cycles) :
  in_u32 c -> clamped4 c (delays_of_cycles c).
Proof.
  intros (HA & HB & HC & HD). unfold clamped4, delays_of_cycles; simpl.
  split; [|split; [|split]]; apply sub_overhead_clamped; assumption.
Qed.

Lemma continuous_cycles_in_u32 (sys_clk_hz pio_clk_div : float32) (c : Cycles) :
  Continuous.cycles sys_clk_hz pio_clk_div = Some c -> in_u32 c.
Proof.
  unfold Continuous.cycles. intros H.
  apply obind_Some in H. destruct H as [cA [HA H]].
  apply obind_Some in H. destruct H as [cB [HB H]].
  apply obind_Some in H. destruct H as [cC [HC H]].
  apply obind_Some in H. destruct H as [cD [HD H]].
  injection H as <-. unfold in_u32; simpl.
  apply to_uint32_range in HA, HB, HC, HD. tauto.
Qed.

Lemma gated_pio_cycles_in_u32 (sys_clk_hz pio_clk_div : float32)
    (c : Gated.PioCycles) :
  Gated.pio_cycles sys_clk_hz pio_clk_div = Some c ->
  0 <= Gated.total_pio_cycles c < u32_mod /\
  0 <= Gated.pulse_width_cycles c < u32_mod /\
  0 <= Gated.phase_shift_cycles c < u32_mod.
Proof.
  unfold Gated.pio_cycles. intros H.
  apply obind_Some in H. destruct H as [t [Ht H]].
  apply obind_Some in H. destruct H as [pw [Hpw H]].
  apply obind_Some in H. destruct H as [ps [Hps H]].
  injection H as <-. simpl.
  apply to_uint32_range in Ht, Hpw, Hps. tauto.
Qed.

Lemma gated_cycles_in_u32 (sys_clk_hz pio_clk_div : float32) (c : Cycles) :
  Gated.cycles sys_clk_hz pio_clk_div = Some c -> in_u32 c.
Proof.
  unfold Gated.cycles. intros H.
  apply obind_Some in H. destruct H as [pc [Hpc H]].
  injection H as <-.
  apply gated_pio_cycles_in_u32 in Hpc. destruct Hpc as (Ht & Hpw & Hps).
  unfold in_u32, Gated.event_durations; simpl.
  repeat split; try tauto; apply sub32_range.
Qed.

(** C1: with a 125 MHz system clock and divider 12.5 the gated variant's
    [calculate_delays] stores A = 46, B = 46, C = 46, D = 9846. *)
Theorem gated_default_delays :
  Gated.calculate_delays (F32.of_Z 125000000) lit_12_5
  = Some {| delay_A := 46; delay_B := 46; delay_C := 46; delay_D := 9846 |}.
Proof. vm_compute. reflexivity. Qed.

(** C2: in both variants, whenever the four raw cycle counts are defined,
    [calculate_delays] stores for each event the raw count minus 4 if the
    raw count exceeds 4 and 0 otherwise; each stored value is non-negative
    and is 0 exactly when its raw count is at most 4. *)
Theorem overhead_correction (sys_clk_hz pio_clk_div : float32) :
  (forall c, Continuous.cycles sys_clk_hz pio_clk_div = Some c ->
     exists d, Continuous.calculate_delays sys_clk_hz pio_clk_div = Some d /\
               clamped4 c d) /\
  (forall c, Gated.cycles sys_clk_hz pio_clk_div = Some c ->
     exists d, Gated.calculate_delays sys_clk_hz pio_clk_div = Some d /\
               clamped4 c d).
Proof.
  split; intros c Hc.
  - exists (delays_of_cycles c). split.
    + unfold Continuous.calculate_delays. rewrite Hc. reflexivity.
    + apply delays_of_cycles_clamped.
      eapply continuous_cycles_in_u32; eassumption.
  - exists (delays_of_cycles c). split.
    + unfold Gated.calculate_delays. rewrite Hc. reflexivity.
    + apply delays_of_cycles_clamped.
      eapply gated_cycles_in_u32; eassumption.
Qed.

Lemma overhead_correction_witness :
  exists d,
    Gated.calculate_delays clk_sys_default lit_12_5 = Some d /\
    clamped4 {| cycles_A := 50; cycles_B := 50; cycles_C := 50;
                cycles_D := 9850 |} d.
Proof.
  apply (proj2 (overhead_correction clk_sys_default lit_12_5)).
  vm_compute. reflexivity.
Defined.

(** ** Rounding of binary32 products *)

Lemma digits2_pos_bounds (p : positive) :
  2 ^ (Zpos (digits2_pos p) - 1) <= Zpos p < 2 ^ Zpos (digits2_pos p).
Proof.
  induction p as [p IH | p IH |]; simpl digits2_pos.
  - rewrite Pos2Z.inj_succ.
    replace (Z.succ (Zpos (digits2_pos p)) - 1) with (Z.succ (Zpos (digits2_pos p) - 1)) by lia.
    rewrite !Z.pow_succ_r by lia. lia.
  - rewrite Pos2Z.inj_succ.
    replace (Z.succ (Zpos (digits2_pos p)) - 1) with (Z.succ (Zpos (digits2_pos p) - 1)) by lia.
    rewrite !Z.pow_succ_r by lia. lia.
  - split; [apply Z.leb_le | apply Z.ltb_lt]; reflexivity.
Qed.

Lemma Zdigits2_small (m : Z) :
  0 <= m < 2 ^ 24 -> Zdigits2 m <= 24.
Proof.
  intros Hm. destruct m as [|p|p]; simpl; try lia.
  pose proof (digits2_pos_bounds p) as [Hlo _].
  destruct (Z_le_gt_dec (Zpos (digits2_pos p)) 24) as [|Hgt]; [assumption|].
  exfalso.
  assert (2 ^ 24 <= 2 ^ (Zpos (digits2_pos p) - 1)) by (apply Z.pow_le_mono_r; lia).
  lia.
Qed.

Lemma shr_1_m (mrs : shr_record) :
  0 <= shr_m mrs -> shr_m (shr_1 mrs) = shr_m mrs / 2.
Proof.
  destruct mrs as [m r s]; simpl. intros Hm.
  rewrite <- Z.div2_div.
  destruct m as [|[p|p|]|p]; try reflexivity. lia.
Qed.

Lemma iter_shr_m (p : positive) :
  forall mrs, 0 <= shr_m mrs ->
    shr_m (SpecFloat.iter_pos shr_1 p mrs) = shr_m mrs / 2 ^ Zpos p.
Proof.
  induction p as [p IH | p IH |]; intros mrs Hm; simpl SpecFloat.iter_pos.
  - assert (H1 : 0 <= shr_m (shr_1 mrs)) by (rewrite shr_1_m by assumption; apply Z.div_pos; lia).
    assert (H2 : 0 <= shr_m (SpecFloat.iter_pos shr_1 p (shr_1 mrs))) by (rewrite IH by assumption; apply Z.div_pos; lia).
    rewrite IH by assumption. rewrite IH by assumption. rewrite shr_1_m by assumption.
    rewrite !Z.div_div by lia.
    f_equal.
    replace (Zpos p~1) with (1 + Zpos p + Zpos p) by lia.
    rewrite !Z.pow_add_r by lia. lia.
  - assert (H2 : 0 <= shr_m (SpecFloat.iter_pos shr_1 p mrs)) by (rewrite IH by assumption; apply Z.div_pos; lia).
    rewrite IH by assumption. rewrite IH by assumption.
    rewrite !Z.div_div by lia.
    f_equal.
    replace (Zpos p~0) with (Zpos p + Zpos p) by lia.
    rewrite !Z.pow_add_r by lia. lia.
  - rewrite shr_1_m by assumption. reflexivity.
Qed.

Lemma fexp32_eq (e : Z) : fexp32 e = Z.max (e - 24) (-149).
Proof. reflexivity. Qed.

Lemma shr_fexp_keep (m e : Z) (l : location) :
  fexp32 (Zdigits2 m + e) - e <= 0 ->
  shr_fexp F32.prec F32.emax m e l = (shr_record_of_loc m l, e).
Proof.
  intros H. unfold shr_fexp, shr. fold (fexp32 (Zdigits2 m + e)).
  destruct (fexp32 (Zdigits2 m + e) - e); try reflexivity. lia.
Qed.

Lemma shr_fexp_shift (m e : Z) (l : location) :
  0 <= m ->
  0 < fexp32 (Zdigits2 m + e) - e ->
  exists mrs,
    shr_fexp F32.prec F32.emax m e l = (mrs, fexp32 (Zdigits2 m + e)) /\
    shr_m mrs = m / 2 ^ (fexp32 (Zdigits2 m + e) - e).
Proof.
  intros Hm H. unfold shr_fexp, shr. fold (fexp32 (Zdigits2 m + e)).
  destruct (fexp32 (Zdigits2 m + e) - e) as [|n|n] eqn:E; try lia.
  eexists. split.
  - f_equal. lia.
  - rewrite iter_shr_m; [|destruct l as [|[| |]]; simpl; assumption].
    destruct l as [|[| |]]; reflexivity.
Qed.

Lemma round_nearest_even_range (m : Z) (l : location) :
  m <= round_nearest_even m l <= m + 1.
Proof.
  destruct l as [|[| |]]; simpl; try lia.
  destruct (Z.even m); lia.
Qed.

Lemma shr_record_of_loc_m (m : Z) (l : location) :
  shr_m (shr_record_of_loc m l) = m.
Proof. destruct l as [|[| |]]; reflexivity. Qed.

Lemma binary_round_aux_keep (s : bool) (pm : positive) (pe : Z) :
  fexp32 (Zpos (digits2_pos pm) + pe) - pe <= 0 ->
  binary_round_aux F32.prec F32.emax s (Zpos pm) pe loc_Exact = pack s (Zpos pm) pe.
Proof.
  intros H. unfold binary_round_aux.
  rewrite shr_fexp_keep by exact H. simpl shr_record_of_loc. simpl loc_of_shr_record.
  simpl round_nearest_even.
  rewrite shr_fexp_keep by exact H. reflexivity.
Qed.

Lemma binary_round_aux_shift (s : bool) (pm : positive) (pe : Z) :
  let e1 := fexp32 (Zpos (digits2_pos pm) + pe) in
  0 < e1 - pe ->
  exists m2,
    Zpos pm / 2 ^ (e1 - pe) <= m2 <= Zpos pm / 2 ^ (e1 - pe) + 1 /\
    m2 <= 2 ^ 24 /\
    binary_round_aux F32.prec F32.emax s (Zpos pm) pe loc_Exact
    = if m2 =? 2 ^ 24 then pack s (2 ^ 23) (e1 + 1) else pack s m2 e1.
Proof.
  intros e1 H. unfold binary_round_aux.
  destruct (shr_fexp_shift (Zpos pm) pe loc_Exact) as [mrs [E Hm]]; [lia | exact H |].
  simpl Zdigits2 in E, Hm. fold e1 in E, Hm. rewrite E.
  set (m1 := shr_m mrs) in *.
  set (m2 := round_nearest_even m1 (loc_of_shr_record mrs)).
  pose proof (round_nearest_even_range m1 (loc_of_shr_record mrs)) as Hr. fold m2 in Hr.
  assert (Hm1 : 0 <= m1 < 2 ^ 24).
  { rewrite Hm. split; [apply Z.div_pos; lia|].
    apply Z.div_lt_upper_bound; [lia|].
    pose proof (digits2_pos_bounds pm) as [_ Hhi].
    eapply Z.lt_le_trans; [exact Hhi|].
    rewrite <- Z.pow_add_r by lia.
    apply Z.pow_le_mono_r; [lia|].
    unfold e1. rewrite fexp32_eq. lia. }
  assert (He1 : -149 <= e1) by (unfold e1; rewrite fexp32_eq; lia).
  exists m2. split; [rewrite <- Hm; exact Hr|]. split; [lia|].
  destruct (m2 =? 2 ^ 24) eqn:E24.
  - apply Z.eqb_eq in E24. rewrite E24.
    assert (Hd : fexp32 (Zdigits2 (2 ^ 24) + e1) = e1 + 1).
    { change (Zdigits2 (2 ^ 24)) with 25. rewrite fexp32_eq. lia. }
    destruct (shr_fexp_shift (2 ^ 24) e1 loc_Exact) as [mrs2 [E2 Hm2]];
      [lia | rewrite Hd; lia |].
    rewrite E2, Hm2, Hd.
    replace (e1 + 1 - e1) with 1 by lia. reflexivity.
  - apply Z.eqb_neq in E24.
    rewrite shr_fexp_keep.
    + simpl shr_record_of_loc. simpl shr_m. reflexivity.
    + assert (Zdigits2 m2 <= 24) by (apply Zdigits2_small; lia).
      rewrite fexp32_eq. lia.
Qed.

(** *** Real values *)

Lemma powerRZ2_pos (e : Z) : (0 < powerRZ 2 e)%R.
Proof. apply powerRZ_lt. lra. Qed.

Lemma powerRZ2_add (a b : Z) :
  powerRZ 2 (a + b) = (powerRZ 2 a * powerRZ 2 b)%R.
Proof. apply powerRZ_add. lra. Qed.

Lemma IZR_pow2 (n : Z) : 0 <= n -> IZR (2 ^ n) = powerRZ 2 n.
Proof.
  intros Hn. rewrite <- (Z2Nat.id n Hn) at 1.
  rewrite <- pow_IZR. rewrite pow_powerRZ. rewrite Z2Nat.id by exact Hn.
  reflexivity.
Qed.

Lemma eta_bounds : (0 < eta <= / 1024)%R.
Proof.
  split; [apply powerRZ2_pos|].
  unfold eta.
  assert (H : (powerRZ 2 (-149) * powerRZ 2 149 = 1)%R).
  { rewrite <- powerRZ2_add. reflexivity. }
  assert (H1 : (1024 <= powerRZ 2 149)%R).
  { rewrite <- IZR_pow2 by lia. apply IZR_le. apply Z.leb_le. reflexivity. }
  pose proof (powerRZ2_pos (-149)) as H2.
  assert (H3 : (powerRZ 2 (-149) * 1024 <= powerRZ 2 (-149) * powerRZ 2 149)%R)
    by (apply Rmult_le_compat_l; lra).
  lra.
Qed.

Lemma powerRZ2_le (a b : Z) : a <= b -> (powerRZ 2 a <= powerRZ 2 b)%R.
Proof.
  intros H. replace b with (a + (b - a)) by lia. rewrite powerRZ2_add.
  assert (H1 : (1 <= powerRZ 2 (b - a))%R).
  { rewrite <- IZR_pow2 by lia. apply IZR_le.
    pose proof (Z.pow_pos_nonneg 2 (b - a)). lia. }
  pose proof (powerRZ2_pos a) as Ha.
  rewrite <- (Rmult_1_r (powerRZ 2 a)) at 1.
  apply Rmult_le_compat_l; lra.
Qed.

Lemma pack_cases (s : bool) (m e : Z) :
  0 <= m ->
  (pack s m e = S754_infinity s /\ (powerRZ 2 105 <= F2R m e)%R) \/
  (signed_finite s (pack s m e) /\ magnitude (pack s m e) = F2R m e).
Proof.
  intros Hm. destruct m as [|p|p]; [| |lia]; unfold pack.
  - right. split; [constructor|]. unfold magnitude, F2R. lra.
  - destruct (e <=? F32.emax - F32.prec) eqn:E.
    + right. split; [constructor | reflexivity].
    + left. split; [reflexivity|].
      apply Z.leb_gt in E. change (F32.emax - F32.prec) with 104 in E.
      unfold F2R.
      assert (H1 : (1 <= IZR (Zpos p))%R) by (apply IZR_le; lia).
      assert (H2 : (powerRZ 2 105 <= powerRZ 2 e)%R) by (apply powerRZ2_le; lia).
      pose proof (powerRZ2_pos e) as H3.
      pose proof (powerRZ2_pos 105) as H4.
      rewrite <- (Rmult_1_l (powerRZ 2 105)).
      apply Rmult_le_compat; lra.
Qed.

(** Integer division by a power of two, read in the reals. *)
Lemma div_pow2_bracket (m k : Z) :
  0 <= k ->
  (IZR (m / 2 ^ k) * powerRZ 2 k <= IZR m < (IZR (m / 2 ^ k) + 1) * powerRZ 2 k)%R.
Proof.
  intros Hk. rewrite <- IZR_pow2 by exact Hk.
  assert (Hp : 0 < 2 ^ k) by (apply Z.pow_pos_nonneg; lia).
  pose proof (Z.mul_div_le m (2 ^ k) Hp) as H1.
  pose proof (Z.mul_succ_div_gt m (2 ^ k) Hp) as H2.
  split.
  - rewrite <- mult_IZR. apply IZR_le. lia.
  - replace 1%R with (IZR 1) by reflexivity.
    rewrite <- plus_IZR, <- mult_IZR. apply IZR_lt. lia.
Qed.

(** Rounding a positive product [pm * 2^pe] to binary32: the rounded
    mantissa and exponent denote a value within one unit in the last place
    of the exact one. *)
Lemma binary_round_aux_value (s : bool) (pm : positive) (pe : Z) :
  let x := F2R (Zpos pm) pe in
  exists m3 e3,
    binary_round_aux F32.prec F32.emax s (Zpos pm) pe loc_Exact = pack s m3 e3 /\
    0 <= m3 /\
    (x - (x / 8388608 + eta) <= F2R m3 e3 <= x + (x / 8388608 + eta))%R.
Proof.
  intros x.
  assert (Hx : (0 < x)%R).
  { unfold x, F2R. apply Rmult_lt_0_compat; [apply IZR_lt; lia | apply powerRZ2_pos]. }
  pose proof eta_bounds as Heta.
  set (e1 := fexp32 (Zpos (digits2_pos pm) + pe)).
  destruct (Z_le_gt_dec (e1 - pe) 0) as [Hk | Hk].
  - (* exactly representable *)
    exists (Zpos pm), pe. rewrite binary_round_aux_keep by exact Hk.
    split; [reflexivity|]. split; [lia|]. fold x. lra.
  - destruct (binary_round_aux_shift s pm pe) as [m2 [Hm2 [Hle Hr]]]; [fold e1; lia|].
    fold e1 in Hm2, Hr.
    set (k := e1 - pe) in *.
    set (m1 := Zpos pm / 2 ^ k) in *.
    assert (Hm1 : 0 <= m1) by (apply Z.div_pos; [lia | apply Z.pow_pos_nonneg; lia]).
    (* the rounded value, whichever way it is packed *)
    assert (Hval : exists m3 e3,
               binary_round_aux F32.prec F32.emax s (Zpos pm) pe loc_Exact
               = pack s m3 e3 /\ 0 <= m3 /\ F2R m3 e3 = F2R m2 e1).
    { rewrite Hr. destruct (m2 =? 2 ^ 24) eqn:E24.
      - apply Z.eqb_eq in E24.
        exists (2 ^ 23), (e1 + 1). split; [reflexivity|]. split; [lia|].
        rewrite E24. unfold F2R.
        rewrite powerRZ2_add. simpl (powerRZ 2 1).
        replace (2 ^ 24) with (2 ^ 23 * 2) by reflexivity.
        rewrite mult_IZR. lra.
      - exists m2, e1. split; [reflexivity|]. split; [lia | reflexivity]. }
    destruct Hval as [m3 [e3 [Hpack [Hm3 Hv]]]].
    exists m3, e3. split; [exact Hpack|]. split; [exact Hm3|]. rewrite Hv.
    (* ulp bound *)
    assert (Hulp : (powerRZ 2 e1 <= x / 8388608 + eta)%R).
    { unfold e1 at 1. rewrite fexp32_eq.
      destruct (Z.max_spec (Zpos (digits2_pos pm) + pe - 24) (-149)) as [[_ ->] | [_ ->]].
      - fold eta. lra.
      - replace (Zpos (digits2_pos pm) + pe - 24)
          with ((Zpos (digits2_pos pm) - 1) + (pe + -23)) by lia.
        rewrite powerRZ2_add, powerRZ2_add.
        pose proof (digits2_pos_bounds pm) as [Hlo _].
        apply IZR_le in Hlo. rewrite IZR_pow2 in Hlo by lia.
        assert (H23 : (powerRZ 2 (-23) = / 8388608)%R).
        { apply Rmult_eq_reg_r with (powerRZ 2 23); [|apply Rgt_not_eq, powerRZ2_pos].
          rewrite <- powerRZ2_add. rewrite <- IZR_pow2 by lia.
          change (IZR (2 ^ 23)) with 8388608%R. simpl. field. }
        rewrite H23. unfold x, F2R.
        pose proof (powerRZ2_pos pe).
        assert (powerRZ 2 (Zpos (digits2_pos pm) - 1) * powerRZ 2 pe
                <= IZR (Zpos pm) * powerRZ 2 pe)%R
          by (apply Rmult_le_compat_r; lra).
        lra. }
    pose proof (div_pow2_bracket (Zpos pm) k ltac:(lia)) as [Hb1 Hb2]. fold m1 in Hb1, Hb2.
    assert (He : powerRZ 2 e1 = (powerRZ 2 k * powerRZ 2 pe)%R).
    { rewrite <- powerRZ2_add. f_equal. unfold k. lia. }
    assert (Hm2R : (IZR m1 <= IZR m2 <= IZR m1 + 1)%R).
    { split; [apply IZR_le; lia|].
      replace 1%R with (IZR 1) by reflexivity. rewrite <- plus_IZR. apply IZR_le. lia. }
    unfold F2R. unfold x, F2R in Hulp |- *.
    pose proof (powerRZ2_pos pe) as Hpe. pose proof (powerRZ2_pos k) as Hpk.
    rewrite He in Hulp |- *.
    set (P := powerRZ 2 pe) in *. set (Kk := powerRZ 2 k) in *.
    assert (IZR m1 * Kk * P <= IZR (Zpos pm) * P)%R by (apply Rmult_le_compat_r; lra).
    assert (IZR (Zpos pm) * P < (IZR m1 + 1) * Kk * P)%R by (apply Rmult_lt_compat_r; lra).
    assert (IZR m1 * (Kk * P) <= IZR m2 * (Kk * P))%R
      by (apply Rmult_le_compat_r; [apply Rlt_le, Rmult_lt_0_compat; lra | lra]).
    assert (IZR m2 * (Kk * P) <= (IZR m1 + 1) * (Kk * P))%R
      by (apply Rmult_le_compat_r; [apply Rlt_le, Rmult_lt_0_compat; lra | lra]).
    lra.
Qed.

(** The rounded product is an infinity only when the exact value is of
    the order of 2^105; otherwise it is a finite float of the same sign
    within one unit in the last place. *)
Lemma binary_round_aux_error (s : bool) (pm : positive) (pe : Z) :
  let r := binary_round_aux F32.prec F32.emax s (Zpos pm) pe loc_Exact in
  let x := F2R (Zpos pm) pe in
  (r = S754_infinity s /\ (powerRZ 2 105 <= x + (x / 8388608 + eta))%R) \/
  (signed_finite s r /\
   (x - (x / 8388608 + eta) <= magnitude r <= x + (x / 8388608 + eta))%R).
Proof.
  intros r x.
  destruct (binary_round_aux_value s pm pe) as [m3 [e3 [Hr [Hm3 Hb]]]].
  fold r in Hr. fold x in Hb. rewrite Hr.
  destruct (pack_cases s m3 e3 Hm3) as [[Hi Hbig] | [Hf Hv]].
  - left. split; [exact Hi | lra].
  - right. split; [exact Hf|]. rewrite Hv. exact Hb.
Qed.

(** *** Truncating casts of rounded values *)

Lemma to_uint32_trunc (x : float32) (n : Z) :
  F32.to_uint32 x = Some n -> F32.trunc x = Some n /\ 0 <= n < u32_mod.
Proof.
  intros H. split; [|eapply to_uint32_range; exact H].
  unfold F32.to_uint32 in H. apply obind_Some in H. destruct H as [k [Hk H]].
  destruct ((0 <=? k) && (k <? 2 ^ 32)); [|discriminate].
  injection H as <-. exact Hk.
Qed.

Lemma trunc_bracket (x : float32) (n : Z) :
  signed_finite false x -> F32.trunc x = Some n ->
  (IZR n <= magnitude x < IZR n + 1)%R.
Proof.
  intros Hf H. destruct Hf as [|m e].
  - injection H as <-. simpl. lra.
  - assert (Hn : n = if 0 <=? e then Zpos m * 2 ^ e else Zpos m / 2 ^ (- e))
      by (unfold F32.trunc in H; congruence).
    clear H. subst n. unfold magnitude, F2R.
    destruct (0 <=? e) eqn:E.
    + apply Z.leb_le in E. rewrite mult_IZR, IZR_pow2 by exact E. lra.
    + apply Z.leb_gt in E.
      pose proof (div_pow2_bracket (Zpos m) (- e) ltac:(lia)) as [H1 H2].
      assert (Hinv : (powerRZ 2 (- e) * powerRZ 2 e = 1)%R).
      { rewrite <- powerRZ2_add. replace (- e + e) with 0 by lia. reflexivity. }
      pose proof (powerRZ2_pos e) as Hpe.
      set (q := IZR (Zpos m / 2 ^ (- e))) in *.
      assert (q * powerRZ 2 (- e) * powerRZ 2 e <= IZR (Zpos m) * powerRZ 2 e)%R
        by (apply Rmult_le_compat_r; lra).
      assert (IZR (Zpos m) * powerRZ 2 e < (q + 1) * powerRZ 2 (- e) * powerRZ 2 e)%R
        by (apply Rmult_lt_compat_r; lra).
      rewrite Rmult_assoc, Hinv in H, H0. lra.
Qed.

Lemma to_uint32_negative (x : float32) (n : Z) :
  signed_finite true x -> F32.to_uint32 x = Some n -> n = 0.
Proof.
  intros Hf H. destruct Hf as [|m e]; unfold F32.to_uint32, F32.trunc, obind in H.
  - vm_compute in H. congruence.
  - set (mag := if 0 <=? e then Zpos m * 2 ^ e else Zpos m / 2 ^ (- e)) in *.
    assert (Hmag : 0 <= mag).
    { unfold mag. destruct (0 <=? e) eqn:E.
      - apply Z.leb_le in E. apply Z.mul_nonneg_nonneg; [lia | apply Z.pow_nonneg; lia].
      - apply Z.div_pos; [lia | apply Z.pow_pos_nonneg; lia]. }
    destruct ((0 <=? - mag) && (- mag <? 2 ^ 32)) eqn:E0; [|discriminate].
    apply andb_prop in E0. destruct E0 as [E0 _]. apply Z.leb_le in E0.
    assert (Hn : n = - mag) by congruence. lia.
Qed.

(** The two constants the gated calculation multiplies the tick frequency
    by: [1.0f / FREQUENCY_HZ] and [PULSE_WIDTH_US * 1e-6f]. *)
Lemma period_s_value :
  F32.div lit_1 FREQUENCY_HZ = S754_finite false 8589935 (-33).
Proof. vm_compute. reflexivity. Qed.

Lemma pulse_width_s_value :
  F32.mul PULSE_WIDTH_US lit_1em6 = S754_finite false 10995116 (-41).
Proof. vm_compute. reflexivity. Qed.

Lemma phase_shift_s_value :
  F32.mul PHASE_SHIFT_US lit_1em6 = S754_finite false 10995116 (-41).
Proof. vm_compute. reflexivity. Qed.

(** For any tick frequency [f] whatsoever, three pulse widths in cycles fit
    into the period in cycles, once both are cast to [uint32_t]. *)
Lemma three_pulses_fit (f : float32) (t a : Z) :
  F32.to_uint32 (F32.mul (S754_finite false 8589935 (-33)) f) = Some t ->
  F32.to_uint32 (F32.mul (S754_finite false 10995116 (-41)) f) = Some a ->
  3 * a <= t.
Proof.
  intros Ht Ha.
  pose proof (to_uint32_range _ _ Ht) as Rt.
  destruct f as [s | s | | s m e]; try discriminate.
  - (* zero *)
    assert (a = 0) by (vm_compute in Ha; congruence). lia.
  - change (F32.mul (S754_finite false 8589935 (-33)) (S754_finite s m e))
      with (binary_round_aux F32.prec F32.emax s (Zpos (8589935 * m)) (-33 + e) loc_Exact)
      in Ht.
    change (F32.mul (S754_finite false 10995116 (-41)) (S754_finite s m e))
      with (binary_round_aux F32.prec F32.emax s (Zpos (10995116 * m)) (-41 + e) loc_Exact)
      in Ha.
    pose proof (binary_round_aux_error s (10995116 * m) (-41 + e)) as Ea.
    pose proof (binary_round_aux_error s (8589935 * m) (-33 + e)) as Et.
    cbv zeta in Ea, Et.
    set (ra := binary_round_aux F32.prec F32.emax s (Zpos (10995116 * m)) (-41 + e) loc_Exact) in *.
    set (rt := binary_round_aux F32.prec F32.emax s (Zpos (8589935 * m)) (-33 + e) loc_Exact) in *.
    destruct Ea as [[Ea _] | [Fa Ea]]; [rewrite Ea in Ha; discriminate|].
    destruct Et as [[Et _] | [Ft Et]]; [rewrite Et in Ht; discriminate|].
    destruct s.
    + (* negative tick frequency: the pulse width casts to 0 *)
      apply (to_uint32_negative _ _ Fa) in Ha. lia.
    + apply to_uint32_trunc in Ha, Ht.
      destruct Ha as [Ha Ra], Ht as [Ht _].
      pose proof (trunc_bracket _ _ Fa Ha) as Ba.
      pose proof (trunc_bracket _ _ Ft Ht) as Bt.
      destruct (Z_le_gt_dec a 0) as [Ha0 | Ha0]; [lia|].
      assert (Ha1 : (1 <= IZR a)%R) by (apply IZR_le; lia).
      pose proof eta_bounds as Heta.
      unfold F2R in Ea, Et.
      rewrite Pos2Z.inj_mul, mult_IZR in Ea, Et.
      replace (-33 + e) with (8 + (-41 + e)) in Et by lia.
      rewrite powerRZ2_add in Et.
      replace (powerRZ 2 8) with 256%R in Et
        by (rewrite <- IZR_pow2 by lia; reflexivity).
      pose proof (powerRZ2_pos (-41 + e)) as HP.
      assert (HM : (1 <= IZR (Zpos m))%R) by (apply IZR_le; lia).
      set (Y := (IZR (Zpos m) * powerRZ 2 (-41 + e))%R) in *.
      assert (HY : (0 < Y)%R) by (apply Rmult_lt_0_compat; lra).
      replace (IZR 10995116 * IZR (Zpos m) * powerRZ 2 (-41 + e))%R
        with (10995116 * Y)%R in Ea by (unfold Y; ring).
      replace (IZR 8589935 * IZR (Zpos m) * (256 * powerRZ 2 (-41 + e)))%R
        with (2199023360 * Y)%R in Et by (unfold Y; ring).
      assert (Hlt : (3 * IZR a < IZR t + 1)%R) by lra.
      replace 3%R with (IZR 3) in Hlt by reflexivity.
      replace 1%R with (IZR 1) in Hlt by reflexivity.
      rewrite <- mult_IZR, <- plus_IZR in Hlt. apply lt_IZR in Hlt. lia.
Qed.

(** *** When the casts are defined *)

Lemma to_uint32_defined (x : float32) :
  signed_finite false x -> (magnitude x < 4294967296)%R ->
  exists n, F32.to_uint32 x = Some n.
Proof.
  intros Hf Hlt.
  assert (Ht : exists n, F32.trunc x = Some n)
    by (destruct Hf; eexists; reflexivity).
  destruct Ht as [n Ht]. exists n.
  pose proof (trunc_bracket _ _ Hf Ht) as [H1 H2].
  assert (H0 : (0 <= magnitude x)%R).
  { destruct Hf as [|m e]; simpl; [lra|]. unfold F2R.
    apply Rmult_le_pos; [apply IZR_le; lia | apply Rlt_le, powerRZ2_pos]. }
  assert (Hn0 : -1 < n) by (apply lt_IZR; simpl; lra).
  assert (Hn1 : n < 4294967296) by (apply lt_IZR; lra).
  unfold F32.to_uint32, obind. rewrite Ht.
  replace (0 <=? n) with true by (symmetry; apply Z.leb_le; lia).
  replace (n <? 2 ^ 32) with true by (symmetry; apply Z.ltb_lt; lia).
  reflexivity.
Qed.

(** The gated calculation returns for every tick frequency from 0 up to
    4 THz. *)
Lemma gated_pio_cycles_defined (sys_clk_hz pio_clk_div : float32) :
  (exists s, F32.div sys_clk_hz pio_clk_div = S754_zero s) \/
  (exists m e, F32.div sys_clk_hz pio_clk_div = S754_finite false m e /\
               (F2R (Zpos m) e <= 4000000000000)%R) ->
  exists c, Gated.pio_cycles sys_clk_hz pio_clk_div = Some c.
Proof.
  unfold Gated.pio_cycles.
  rewrite period_s_value, pulse_width_s_value, phase_shift_s_value.
  intros [[s ->] | [m [e [-> Hf]]]].
  - eexists. vm_compute. reflexivity.
  - change (F32.mul (S754_finite false 8589935 (-33)) (S754_finite false m e))
      with (binary_round_aux F32.prec F32.emax false (Zpos (8589935 * m)) (-33 + e) loc_Exact).
    change (F32.mul (S754_finite false 10995116 (-41)) (S754_finite false m e))
      with (binary_round_aux F32.prec F32.emax false (Zpos (10995116 * m)) (-41 + e) loc_Exact).
    pose proof (binary_round_aux_error false (10995116 * m) (-41 + e)) as Ea.
    pose proof (binary_round_aux_error false (8589935 * m) (-33 + e)) as Et.
    cbv zeta in Ea, Et.
    set (ra := binary_round_aux F32.prec F32.emax false (Zpos (10995116 * m)) (-41 + e) loc_Exact) in *.
    set (rt := binary_round_aux F32.prec F32.emax false (Zpos (8589935 * m)) (-33 + e) loc_Exact) in *.
    pose proof eta_bounds as Heta.
    assert (Hbig : (8589934592 <= powerRZ 2 105)%R).
    { eapply Rle_trans; [|apply (powerRZ2_le 33 105); lia].
      rewrite <- IZR_pow2 by lia. apply IZR_le. apply Z.leb_le. reflexivity. }
    unfold F2R in Ea, Et, Hf.
    rewrite Pos2Z.inj_mul, mult_IZR in Ea, Et.
    replace (-33 + e) with (8 + (-41 + e)) in Et by lia.
    rewrite powerRZ2_add in Et.
    replace (powerRZ 2 8) with 256%R in Et
      by (rewrite <- IZR_pow2 by lia; reflexivity).
    replace e with (41 + (-41 + e)) in Hf by lia.
    rewrite powerRZ2_add in Hf.
    replace (powerRZ 2 41) with 2199023255552%R in Hf
      by (rewrite <- IZR_pow2 by lia; reflexivity).
    pose proof (powerRZ2_pos (-41 + e)) as HP.
    assert (HM : (1 <= IZR (Zpos m))%R) by (apply IZR_le; lia).
    set (Y := (IZR (Zpos m) * powerRZ 2 (-41 + e))%R) in *.
    assert (HY : (0 < Y)%R) by (apply Rmult_lt_0_compat; lra).
    replace (IZR 10995116 * IZR (Zpos m) * powerRZ 2 (-41 + e))%R
      with (10995116 * Y)%R in Ea by (unfold Y; ring).
    replace (IZR 8589935 * IZR (Zpos m) * (256 * powerRZ 2 (-41 + e)))%R
      with (2199023360 * Y)%R in Et by (unfold Y; ring).
    replace (IZR (Zpos m) * (2199023255552 * powerRZ 2 (-41 + e)))%R
      with (2199023255552 * Y)%R in Hf by (unfold Y; ring).
    destruct Ea as [[_ Ea] | [Fa Ea]]; [exfalso; lra|].
    destruct Et as [[_ Et] | [Ft Et]]; [exfalso; lra|].
    destruct (to_uint32_defined rt Ft) as [t Ht]; [lra|].
    destruct (to_uint32_defined ra Fa) as [a Ha]; [lra|].
    rewrite Ht, Ha. simpl. eexists. reflexivity.
Qed.

(** ** The period-residual calculation *)

Lemma sub32_exact (a b : Z) : 0 <= b <= a -> a < u32_mod -> sub32 a b = a - b.
Proof. intros H1 H2. unfold sub32. apply Z.mod_small. lia. Qed.

(** The three casts of the gated calculation: the two pulses and the phase
    shift together never exceed the period. *)
Lemma pio_cycles_fit (sys_clk_hz pio_clk_div : float32) (c : Gated.PioCycles) :
  Gated.pio_cycles sys_clk_hz pio_clk_div = Some c ->
  Gated.pulse_width_cycles c + Gated.phase_shift_cycles c
  + Gated.pulse_width_cycles c <= Gated.total_pio_cycles c.
Proof.
  unfold Gated.pio_cycles. intros H.
  apply obind_Some in H. destruct H as [t [Ht H]].
  apply obind_Some in H. destruct H as [pw [Hpw H]].
  apply obind_Some in H. destruct H as [ps [Hps H]].
  injection H as <-. simpl.
  rewrite period_s_value in Ht.
  rewrite pulse_width_s_value in Hpw.
  rewrite phase_shift_s_value in Hps.
  assert (ps = pw) by congruence. subst ps.
  pose proof (three_pulses_fit _ _ _ Ht Hpw). lia.
Qed.

Lemma event_D_exact (sys_clk_hz pio_clk_div : float32) (c : Gated.PioCycles) :
  Gated.pio_cycles sys_clk_hz pio_clk_div = Some c ->
  cycles_D (Gated.event_durations c)
  = Gated.total_pio_cycles c - Gated.pulse_width_cycles c
    - Gated.phase_shift_cycles c - Gated.pulse_width_cycles c.
Proof.
  intros H.
  pose proof (pio_cycles_fit _ _ _ H) as Hfit.
  apply gated_pio_cycles_in_u32 in H. destruct H as (Ht & Hpw & Hps).
  unfold Gated.event_durations; simpl.
  rewrite (sub32_exact (Gated.total_pio_cycles c)) by lia.
  rewrite (sub32_exact (Gated.total_pio_cycles c - Gated.pulse_width_cycles c))
    by lia.
  rewrite sub32_exact by lia.
  reflexivity.
Qed.

(** The configured signal satisfies the SignalSpec invariant. *)
Lemma configured_signal_valid :
  signal_spec_invariant FREQUENCY_HZ PULSE_WIDTH_US PHASE_SHIFT_US.
Proof.
  unfold signal_spec_invariant. do 3 eexists.
  split; [reflexivity|]. split; [reflexivity|]. split; [reflexivity|].
  split; vm_compute; reflexivity.
Qed.

(** C10: whenever the three casts of the gated calculation are defined,
    the truncated A, B and C cycle counts sum to at most
    [total_pio_cycles], so the [uint32_t] subtraction that yields
    [event_D_duration] does not wrap around. The configured signal
    satisfies the SignalSpec invariant. *)
Theorem gated_no_underflow (sys_clk_hz pio_clk_div : float32)
    (c : Gated.PioCycles) :
  Gated.pio_cycles sys_clk_hz pio_clk_div = Some c ->
  signal_spec_invariant FREQUENCY_HZ PULSE_WIDTH_US PHASE_SHIFT_US /\
  cycles_A (Gated.event_durations c) + cycles_B (Gated.event_durations c)
  + cycles_C (Gated.event_durations c) <= Gated.total_pio_cycles c /\
  cycles_D (Gated.event_durations c)
  = Gated.total_pio_cycles c - cycles_A (Gated.event_durations c)
    - cycles_B (Gated.event_durations c) - cycles_C (Gated.event_durations c).
Proof.
  intros H. split; [exact configured_signal_valid|]. split.
  - apply pio_cycles_fit in H. exact H.
  - apply event_D_exact in H. exact H.
Qed.

Lemma gated_no_underflow_witness :
  signal_spec_invariant FREQUENCY_HZ PULSE_WIDTH_US PHASE_SHIFT_US /\
  50 + 50 + 50 <= 10000 /\
  9850 = 10000 - 50 - 50 - 50.
Proof.
  apply (gated_no_underflow clk_sys_default lit_12_5
           (Gated.mkPioCycles 10000 50 50)).
  vm_compute. reflexivity.
Defined.

(** C3, as the spec words it, fails: with a 125 MHz system clock and
    divider 12 the period is 10416.67 cycles, which rounds to 10417, while
    the four raw counts sum to 10416. *)
Lemma period_round_counterexample :
  Gated.cycles clk_sys_default (F32.of_Z 12)
  = Some {| cycles_A := 52; cycles_B := 52; cycles_C := 52; cycles_D := 10260 |} /\
  spec_period_cycles clk_sys_default (F32.of_Z 12) = Some 10417 /\
  52 + 52 + 52 + 10260 <> 10417.
Proof.
  split; [vm_compute; reflexivity|].
  split; [vm_compute; reflexivity|].
  discriminate.
Qed.

(** C3 (amended): whenever the casts of the gated calculation are defined,
    the four raw cycle counts sum exactly to [total_pio_cycles], which is
    the binary32 product [period_s * pio_clk_hz] truncated toward zero. *)
Theorem gated_period_conservation (sys_clk_hz pio_clk_div : float32)
    (c : Cycles) :
  Gated.cycles sys_clk_hz pio_clk_div = Some c ->
  exists total,
    F32.trunc (F32.mul (F32.div lit_1 FREQUENCY_HZ)
                       (F32.div sys_clk_hz pio_clk_div)) = Some total /\
    cycles_A c + cycles_B c + cycles_C c + cycles_D c = total.
Proof.
  unfold Gated.cycles. intros H.
  apply obind_Some in H. destruct H as [pc [Hpc H]]. injection H as <-.
  exists (Gated.total_pio_cycles pc). split.
  - unfold Gated.pio_cycles in Hpc.
    apply obind_Some in Hpc. destruct Hpc as [t [Ht Hpc]].
    apply obind_Some in Hpc. destruct Hpc as [pw [_ Hpc]].
    apply obind_Some in Hpc. destruct Hpc as [ps [_ Hpc]].
    injection Hpc as <-. simpl.
    apply to_uint32_trunc in Ht. apply Ht.
  - rewrite (event_D_exact _ _ _ Hpc).
    unfold Gated.event_durations; simpl. lia.
Qed.

Lemma gated_period_conservation_witness :
  exists total,
    F32.trunc (F32.mul (F32.div lit_1 FREQUENCY_HZ)
                       (F32.div clk_sys_default (F32.of_Z 12))) = Some total /\
    52 + 52 + 52 + 10260 = total.
Proof.
  apply (gated_period_conservation clk_sys_default (F32.of_Z 12)
           {| cycles_A := 52; cycles_B := 52; cycles_C := 52; cycles_D := 10260 |}).
  vm_compute. reflexivity.
Defined.

(** C9: with a 125 MHz system clock and divider 12.5 the direct-formula
    and the period-residual [calculate_delays] store the same four values,
    46, 46, 46 and 9846. *)
Theorem variants_agree_at_default :
  Continuous.calculate_delays clk_sys_default lit_12_5
  = Gated.calculate_delays clk_sys_default lit_12_5 /\
  Continuous.calculate_delays clk_sys_default lit_12_5 = Some default_delays.
Proof. split; vm_compute; reflexivity. Qed.

(** ** Feeder loops *)

Lemma continuous_puts_phase (d : DelaySet) (p : Continuous.pc) (tr : list event)
    (p' : Continuous.pc) :
  Continuous.exec d p tr p' ->
  exists k : nat,
    firstn (Continuous.phase p) (quadruple d) ++ puts tr
    = concat (repeat (quadruple d) k)
      ++ firstn (Continuous.phase p') (quadruple d).
Proof.
  induction 1 as [p | p e p1 tr p2 Hstep Hexec [k IH]].
  - exists 0%nat. simpl. apply app_nil_r.
  - destruct Hstep; simpl in IH |- *;
      try (exists k; exact IH).
    exists (S k). simpl. rewrite IH. reflexivity.
Qed.

Lemma gated_puts_phase (d : DelaySet) (p : Gated.pc) (tr : list event)
    (p' : Gated.pc) :
  Gated.exec d p tr p' ->
  exists k : nat,
    firstn (Gated.phase p) (quadruple d) ++ puts tr
    = concat (repeat (quadruple d) k)
      ++ firstn (Gated.phase p') (quadruple d).
Proof.
  induction 1 as [p | p e p1 tr p2 Hstep Hexec [k IH]].
  - exists 0%nat. simpl. apply app_nil_r.
  - destruct Hstep; simpl in IH |- *;
      try (exists k; exact IH).
    exists (S k). simpl. rewrite IH. reflexivity.
Qed.

Lemma continuous_loop_runs (d : DelaySet) (k : nat) :
  Continuous.exec d Continuous.PutA
    (map EvPut (concat (repeat (quadruple d) k))) Continuous.PutA.
Proof.
  induction k as [|k IH]; [constructor|].
  simpl.
  eapply Continuous.exec_cons; [apply Continuous.step_put_A|].
  eapply Continuous.exec_cons; [apply Continuous.step_put_B|].
  eapply Continuous.exec_cons; [apply Continuous.step_put_C|].
  eapply Continuous.exec_cons; [apply Continuous.step_put_D|].
  exact IH.
Qed.

Lemma continuous_step_deterministic (d : DelaySet) (p : Continuous.pc)
    (e1 e2 : event) (p1 p2 : Continuous.pc) :
  Continuous.step d p e1 p1 -> Continuous.step d p e2 p2 ->
  e1 = e2 /\ p1 = p2.
Proof. intros H1 H2. destruct H1; inversion H2; split; reflexivity. Qed.

Lemma continuous_exec_deterministic (d : DelaySet) (p : Continuous.pc)
    (tr1 : list event) (p1 : Continuous.pc) :
  Continuous.exec d p tr1 p1 ->
  forall tr2 p2,
    Continuous.exec d p tr2 p2 -> length tr1 = length tr2 ->
    tr1 = tr2 /\ p1 = p2.
Proof.
  induction 1 as [p | p e q tr q' Hstep Hexec IH]; intros tr2 p2 H2 Hlen.
  - destruct tr2; [|discriminate]. inversion H2; subst. split; reflexivity.
  - destruct tr2 as [|e2 tr2]; [discriminate|].
    inversion H2 as [|p0 e0 q2 tr0 q0 Hstep2 Hexec2]; subst.
    destruct (continuous_step_deterministic _ _ _ _ _ _ Hstep Hstep2)
      as [-> ->].
    simpl in Hlen. injection Hlen as Hlen.
    destruct (IH _ _ Hexec2 Hlen) as [-> ->]. split; reflexivity.
Qed.

Lemma gated_feeder_runs (d : DelaySet) (s : Z) (ts : list Z) :
  Forall (fun t => Gated.is_time t /\ Gated.within_duration s t = true) ts ->
  Gated.exec d (Gated.LoopTest s) (flat_map (Gated.round_trip d) ts)
             (Gated.LoopTest s).
Proof.
  induction 1 as [|t ts [Ht Hw] _ IH]; [constructor|].
  simpl.
  eapply Gated.exec_cons; [apply Gated.step_feed; assumption|].
  eapply Gated.exec_cons; [apply Gated.step_put_A|].
  eapply Gated.exec_cons; [apply Gated.step_put_B|].
  eapply Gated.exec_cons; [apply Gated.step_put_C|].
  eapply Gated.exec_cons; [apply Gated.step_put_D|].
  exact IH.
Qed.

Lemma gated_iteration_pushes_all (d : DelaySet) (s t : Z) (tr : list event)
    (p : Gated.pc) :
  Gated.exec d (Gated.LoopTest s) (EvTime t :: tr) p ->
  Gated.within_duration s t = true ->
  (4 <= length tr)%nat ->
  exists tr',
    tr = [EvPut (delay_A d); EvPut (delay_B d); EvPut (delay_C d);
          EvPut (delay_D d)] ++ tr' /\
    Gated.exec d (Gated.LoopTest s) tr' p.
Proof.
  intros H Hw Hlen.
  inversion H as [|p0 e0 p1 tr0 p2 Hstep H1]; subst.
  inversion Hstep as [| | | |s0 t0 Ht Hw'|s0 t0 Ht Hw'| | | | | | | | |]; subst;
    [|congruence].
  destruct tr as [|e1 tr]; [simpl in Hlen; lia|].
  inversion H1 as [|p0 e0 p1 tr0 p2 HsA H2]; subst. inversion HsA; subst.
  destruct tr as [|e2 tr]; [simpl in Hlen; lia|].
  inversion H2 as [|p0 e0 p1 tr0 p2 HsB H3]; subst. inversion HsB; subst.
  destruct tr as [|e3 tr]; [simpl in Hlen; lia|].
  inversion H3 as [|p0 e0 p1 tr0 p2 HsC H4]; subst. inversion HsC; subst.
  destruct tr as [|e4 tr]; [simpl in Hlen; lia|].
  inversion H4 as [|p0 e0 p1 tr0 p2 HsD H5]; subst. inversion HsD; subst.
  exists tr. split; [reflexivity | exact H5].
Qed.

(** C4: in both variants every iteration of the feeder loop pushes A,
    then B, then C, then D, with nothing skipped or reordered.
    Continuous: the values pushed along any run are whole quadruples
    followed by the first values of the one in progress; for every [k]
    the loop does run through [k] whole quadruples; and a run is fixed
    by its length, so there is no other way for it to go. Gated: the
    same prefix property; after a press, any number of passing time
    tests is a run in which each test is followed by the four pushes;
    and after a passing time test the next four calls of any run are
    exactly the pushes of A, B, C and D, which lead back to the time
    test. *)
Theorem feeder_push_order (d : DelaySet) :
  (forall tr p, Continuous.exec d Continuous.Enable tr p ->
     exists k : nat,
       puts tr = concat (repeat (quadruple d) k)
                 ++ firstn (Continuous.phase p) (quadruple d)) /\
  (forall k : nat,
     Continuous.exec d Continuous.Enable
       (EvEnable true :: map EvPut (concat (repeat (quadruple d) k)))
       Continuous.PutA) /\
  (forall tr1 p1 tr2 p2,
     Continuous.exec d Continuous.Enable tr1 p1 ->
     Continuous.exec d Continuous.Enable tr2 p2 ->
     length tr1 = length tr2 ->
     tr1 = tr2 /\ p1 = p2) /\
  (forall tr p, Gated.exec d Gated.Poll tr p ->
     exists k : nat,
       puts tr = concat (repeat (quadruple d) k)
                 ++ firstn (Gated.phase p) (quadruple d)) /\
  (forall t0 ts,
     Gated.is_time t0 ->
     Forall (fun t => Gated.is_time t /\ Gated.within_duration t0 t = true)
            ts ->
     Gated.exec d Gated.Poll
       (EvGpio false :: EvEnable true :: EvTime t0
          :: flat_map (Gated.round_trip d) ts)
       (Gated.LoopTest t0)) /\
  (forall s t tr p,
     Gated.exec d (Gated.LoopTest s) (EvTime t :: tr) p ->
     Gated.within_duration s t = true ->
     (4 <= length tr)%nat ->
     exists tr',
       tr = [EvPut (delay_A d); EvPut (delay_B d); EvPut (delay_C d);
             EvPut (delay_D d)] ++ tr' /\
       Gated.exec d (Gated.LoopTest s) tr' p).
Proof.
  split; [|split; [|split; [|split; [|split]]]].
  - intros tr p H. apply continuous_puts_phase in H. exact H.
  - intros k. eapply Continuous.exec_cons; [apply Continuous.step_enable|].
    apply continuous_loop_runs.
  - intros tr1 p1 tr2 p2 H1 H2 Hlen.
    eapply continuous_exec_deterministic; eassumption.
  - intros tr p H. apply gated_puts_phase in H. exact H.
  - intros t0 ts Ht0 Hts.
    eapply Gated.exec_cons; [apply Gated.step_pressed|].
    eapply Gated.exec_cons; [apply Gated.step_enable|].
    eapply Gated.exec_cons; [apply Gated.step_start; exact Ht0|].
    apply gated_feeder_runs. exact Hts.
  - intros s t tr p H Hw Hlen.
    eapply gated_iteration_pushes_all; eassumption.
Qed.

Lemma feeder_push_order_witness :
  (exists k : nat,
     puts [EvEnable true; EvPut 46; EvPut 46; EvPut 46; EvPut 9846; EvPut 46]
     = concat (repeat (quadruple default_delays) k)
       ++ firstn (Continuous.phase Continuous.PutB)
                 (quadruple default_delays)) /\
  ([EvEnable true; EvPut 46; EvPut 46; EvPut 46; EvPut 9846; EvPut 46]
   = EvEnable true
       :: map EvPut (concat (repeat (quadruple default_delays) 1))
       ++ [EvPut 46]) /\
  Gated.exec default_delays Gated.Poll
    (EvGpio false :: EvEnable true :: EvTime 0
       :: flat_map (Gated.round_trip default_delays) [10; 20])
    (Gated.LoopTest 0) /\
  (exists tr',
     [EvPut 46; EvPut 46; EvPut 46; EvPut 9846; EvTime 20; EvPut 46]
     = [EvPut (delay_A default_delays); EvPut (delay_B default_delays);
        EvPut (delay_C default_delays); EvPut (delay_D default_delays)]
       ++ tr' /\
     Gated.exec default_delays (Gated.LoopTest 0) tr' (Gated.PutB 0)).
Proof.
  destruct (feeder_push_order default_delays)
    as (Hc1 & Hc2 & Hc3 & Hg1 & Hg2 & Hg3).
  assert (Hrun : Continuous.exec default_delays Continuous.Enable
                   [EvEnable true; EvPut 46; EvPut 46; EvPut 46; EvPut 9846;
                    EvPut 46] Continuous.PutB).
  { eapply Continuous.exec_cons; [apply Continuous.step_enable|].
    eapply Continuous.exec_cons; [apply (Continuous.step_put_A default_delays)|].
    eapply Continuous.exec_cons; [apply (Continuous.step_put_B default_delays)|].
    eapply Continuous.exec_cons; [apply (Continuous.step_put_C default_delays)|].
    eapply Continuous.exec_cons; [apply (Continuous.step_put_D default_delays)|].
    eapply Continuous.exec_cons; [apply (Continuous.step_put_A default_delays)|].
    apply Continuous.exec_nil. }
  split; [apply Hc1; exact Hrun|].
  split; [reflexivity|].
  split.
  - apply Hg2; [unfold Gated.is_time, Gated.u64_mod; lia|].
    repeat constructor; unfold Gated.u64_mod; lia.
  - apply (Hg3 0 10).
    + eapply Gated.exec_cons;
        [apply Gated.step_feed;
         [unfold Gated.is_time, Gated.u64_mod; lia | reflexivity]|].
      eapply Gated.exec_cons; [apply (Gated.step_put_A default_delays)|].
      eapply Gated.exec_cons; [apply (Gated.step_put_B default_delays)|].
      eapply Gated.exec_cons; [apply (Gated.step_put_C default_delays)|].
      eapply Gated.exec_cons; [apply (Gated.step_put_D default_delays)|].
      eapply Gated.exec_cons;
        [apply Gated.step_feed;
         [unfold Gated.is_time, Gated.u64_mod; lia | reflexivity]|].
      eapply Gated.exec_cons; [apply (Gated.step_put_A default_delays)|].
      apply Gated.exec_nil.
    + reflexivity.
    + simpl. lia.
Defined.

Lemma continuous_step_not_return (d : DelaySet) (p : Continuous.pc) (e : event)
    (p' : Continuous.pc) :
  Continuous.step d p e p' -> p' <> Continuous.Return.
Proof. destruct 1; discriminate. Qed.

Lemma continuous_progress (d : DelaySet) (p : Continuous.pc) :
  p <> Continuous.Return -> exists e p', Continuous.step d p e p'.
Proof.
  destruct p; intros H; try (eexists; eexists; constructor). congruence.
Qed.

Lemma continuous_exec_not_return (d : DelaySet) (p : Continuous.pc)
    (tr : list event) (p' : Continuous.pc) :
  Continuous.exec d p tr p' -> p <> Continuous.Return -> p' <> Continuous.Return.
Proof.
  induction 1 as [p | p e p1 tr p2 Hstep Hexec IH]; intros Hp.
  - exact Hp.
  - apply IH. eapply continuous_step_not_return; eassumption.
Qed.

Lemma continuous_exec_snoc (d : DelaySet) (p : Continuous.pc) (tr : list event)
    (p1 : Continuous.pc) (e : event) (p2 : Continuous.pc) :
  Continuous.exec d p tr p1 -> Continuous.step d p1 e p2 ->
  Continuous.exec d p (tr ++ [e]) p2.
Proof.
  induction 1 as [p | p e0 q tr q' Hstep Hexec IH]; intros Hs; simpl.
  - econstructor; [exact Hs | constructor].
  - econstructor; [exact Hstep | apply IH; exact Hs].
Qed.

(** C8: once the continuous feeder loop is entered, no run ever reaches the
    end of [main]; every state a run reaches has a next step, and there
    are runs of every length. *)
Theorem continuous_never_returns (d : DelaySet) :
  (forall tr p, Continuous.exec d Continuous.PutA tr p ->
     p <> Continuous.Return /\ exists e p', Continuous.step d p e p') /\
  (forall n : nat, exists tr p,
     length tr = n /\ Continuous.exec d Continuous.PutA tr p).
Proof.
  assert (Hsafe : forall tr p, Continuous.exec d Continuous.PutA tr p ->
            p <> Continuous.Return).
  { intros tr p H. eapply continuous_exec_not_return; [exact H | discriminate]. }
  split.
  - intros tr p H. split; [eapply Hsafe; exact H|].
    apply continuous_progress. eapply Hsafe; exact H.
  - induction n as [|n [tr [p [Hlen Hexec]]]].
    + exists [], Continuous.PutA. split; [reflexivity | constructor].
    + destruct (continuous_progress d p (Hsafe _ _ Hexec)) as [e [p' Hstep]].
      exists (tr ++ [e]), p'. split.
      * rewrite length_app, Hlen. simpl. lia.
      * eapply continuous_exec_snoc; eassumption.
Qed.

Lemma continuous_never_returns_witness :
  Continuous.PutC <> Continuous.Return /\
  exists e p', Continuous.step default_delays Continuous.PutC e p'.
Proof.
  apply (proj1 (continuous_never_returns default_delays) [EvPut 46; EvPut 46]).
  eapply Continuous.exec_cons; [apply (Continuous.step_put_A default_delays)|].
  eapply Continuous.exec_cons; [apply (Continuous.step_put_B default_delays)|].
  apply Continuous.exec_nil.
Defined.

(** ** Trigger controller *)

Lemma gated_exec_app (d : DelaySet) (tr1 : list event) :
  forall p tr2 p',
    Gated.exec d p (tr1 ++ tr2) p' ->
    exists q, Gated.exec d p tr1 q /\ Gated.exec d q tr2 p'.
Proof.
  induction tr1 as [|e tr1 IH]; intros p tr2 p' H; simpl in H.
  - exists p. split; [constructor | exact H].
  - inversion H as [|p0 e0 p1 tr0 p2 Hstep Hexec]; subst.
    destruct (IH _ _ _ Hexec) as [q [H1 H2]].
    exists q. split; [econstructor; eassumption | exact H2].
Qed.

(** After [pio_sm_set_enabled(pio, sm, false)] the controller polls the
    button and cannot enable the engine before it has read it high. *)
Lemma cooldown_needs_release (d : DelaySet) (p : Gated.pc) (tr : list event)
    (p' : Gated.pc) :
  Gated.exec d p tr p' ->
  p = Gated.WaitRelease \/ p = Gated.SpinRelease ->
  forall mid post,
    tr = mid ++ EvEnable true :: post -> In (EvGpio true) mid.
Proof.
  induction 1 as [p | p e p1 tr p2 Hstep Hexec IH]; intros Hp mid post Htr.
  - destruct mid; discriminate.
  - destruct mid as [|e' mid'].
    + simpl in Htr. injection Htr as -> _.
      destruct Hp as [-> | ->]; inversion Hstep.
    + simpl in Htr. injection Htr as <- ->.
      destruct Hp as [-> | ->]; inversion Hstep; subst.
      * right. eapply IH; [right; reflexivity | reflexivity].
      * left. reflexivity.
      * right. eapply IH; [left; reflexivity | reflexivity].
Qed.

(** C6: in every run of the gated [main], between a
    [pio_sm_set_enabled(..., false)] and any later
    [pio_sm_set_enabled(..., true)] the button has been read high. *)
Theorem rearm_requires_release (d : DelaySet) (tr : list event) (p : Gated.pc)
    (pre mid post : list event) :
  Gated.exec d Gated.Poll tr p ->
  tr = pre ++ EvEnable false :: mid ++ EvEnable true :: post ->
  In (EvGpio true) mid.
Proof.
  intros Hexec ->.
  apply gated_exec_app in Hexec. destruct Hexec as [q [_ Hexec]].
  inversion Hexec as [|p0 e0 p1 tr0 p2 Hstep Hrest]; subst.
  inversion Hstep; subst.
  eapply cooldown_needs_release; [exact Hrest | left; reflexivity | reflexivity].
Qed.

Lemma rearm_requires_release_witness :
  In (EvGpio true) [EvGpio false; EvTight; EvGpio true; EvTight; EvGpio false].
Proof.
  apply (rearm_requires_release default_delays
           [EvGpio false; EvEnable true; EvTime 0; EvTime 5000000;
            EvEnable false; EvGpio false; EvTight; EvGpio true; EvTight;
            EvGpio false; EvEnable true]
           Gated.StartTimer
           [EvGpio false; EvEnable true; EvTime 0; EvTime 5000000]
           [EvGpio false; EvTight; EvGpio true; EvTight; EvGpio false]
           []).
  - eapply Gated.exec_cons; [apply Gated.step_pressed|].
    eapply Gated.exec_cons; [apply Gated.step_enable|].
    eapply Gated.exec_cons;
      [apply Gated.step_start; unfold Gated.is_time, Gated.u64_mod; lia|].
    eapply Gated.exec_cons;
      [apply Gated.step_elapsed;
       [unfold Gated.is_time, Gated.u64_mod; lia | reflexivity]|].
    eapply Gated.exec_cons; [apply Gated.step_disable|].
    eapply Gated.exec_cons; [apply Gated.step_held|].
    eapply Gated.exec_cons; [apply Gated.step_spin_release|].
    eapply Gated.exec_cons; [apply Gated.step_released|].
    eapply Gated.exec_cons; [apply Gated.step_spin_idle|].
    eapply Gated.exec_cons; [apply Gated.step_pressed|].
    eapply Gated.exec_cons; [apply Gated.step_enable|].
    apply Gated.exec_nil.
  - reflexivity.
Defined.

Lemma feeder_shape (d : DelaySet) (p : Gated.pc) (tr : list event)
    (p' : Gated.pc) :
  Gated.exec d p tr p' ->
  forall s pend mid post,
    pending d p = Some (s, pend) ->
    tr = mid ++ EvEnable false :: post ->
    no_enable mid = true ->
    exists ts tn,
      mid = pend ++ flat_map (Gated.round_trip d) ts ++ [EvTime tn] /\
      Forall (fun t => Gated.is_time t /\ Gated.within_duration s t = true) ts /\
      Gated.is_time tn /\ Gated.within_duration s tn = false.
Proof.
  induction 1 as [p | p e p1 tr p2 Hstep Hexec IH];
    intros s pend mid post Hpend Htr Hmid.
  - destruct mid; discriminate.
  - destruct mid as [|e' mid'].
    + simpl in Htr. injection Htr as -> _.
      inversion Hstep; subst. discriminate.
    + simpl in Htr. injection Htr as <- ->.
      simpl in Hmid. apply andb_prop in Hmid. destruct Hmid as [_ Hmid].
      destruct Hstep; simpl in Hpend; try discriminate;
        injection Hpend as <- <-.
      * (* the time test passes *)
        destruct (IH _ _ _ _ eq_refl eq_refl Hmid) as [ts [tn [-> [Hts Htn]]]].
        exists (t :: ts), tn. split; [reflexivity|].
        split; [constructor; [split; assumption | exact Hts] | exact Htn].
      * (* the time test fails: the next call disables the engine *)
        destruct mid' as [|e'' mid''].
        { exists [], t. simpl. repeat split; try assumption; try constructor;
            apply Ht. }
        { simpl in Hexec.
          inversion Hexec as [|p0 e0 p1 tr0 p3 Hstep' Hrest]; subst.
          inversion Hstep'; subst. simpl in Hmid. discriminate. }
      * destruct (IH _ _ _ _ eq_refl eq_refl Hmid) as [ts [tn [-> H']]].
        exists ts, tn. split; [reflexivity | exact H'].
      * destruct (IH _ _ _ _ eq_refl eq_refl Hmid) as [ts [tn [-> H']]].
        exists ts, tn. split; [reflexivity | exact H'].
      * destruct (IH _ _ _ _ eq_refl eq_refl Hmid) as [ts [tn [-> H']]].
        exists ts, tn. split; [reflexivity | exact H'].
      * destruct (IH _ _ _ _ eq_refl eq_refl Hmid) as [ts [tn [-> H']]].
        exists ts, tn. split; [reflexivity | exact H'].
Qed.

Lemma within_duration_elapsed (s t : Z) :
  Gated.is_time s -> Gated.is_time t -> s <= t ->
  Gated.within_duration s t = (t - s <? Gated.SIGNAL_DURATION_US).
Proof.
  unfold Gated.is_time, Gated.within_duration, Gated.absolute_time_diff_us.
  intros Hs Ht Hle.
  assert (H64 : Gated.u64_mod = 2 * 2 ^ 63) by reflexivity.
  assert (H63 : 0 < 2 ^ 63) by reflexivity.
  rewrite (Z.mod_small (t - s)) by lia.
  destruct (t - s <? 2 ^ 63) eqn:E.
  - rewrite Z.mod_small by lia. reflexivity.
  - apply Z.ltb_ge in E.
    replace ((t - s - Gated.u64_mod) mod Gated.u64_mod) with (t - s);
      [reflexivity|].
    apply Z.mod_unique with (-1); lia.
Qed.

Lemma times_app (a b : list event) : times (a ++ b) = times a ++ times b.
Proof.
  induction a as [|e a IH]; simpl; [reflexivity|].
  destruct e; simpl; rewrite IH; reflexivity.
Qed.

Lemma times_round_trips (d : DelaySet) (ts : list Z) :
  times (flat_map (Gated.round_trip d) ts) = ts.
Proof.
  induction ts as [|t ts IH]; simpl; [reflexivity|]. rewrite IH. reflexivity.
Qed.

Lemma monotone_app_r (a b : list Z) : monotone (a ++ b) -> monotone b.
Proof.
  induction a as [|t a IH]; simpl; [tauto|]. intros [_ H]. apply IH, H.
Qed.

Lemma monotone_head (t u : Z) (l : list Z) :
  monotone (t :: l) -> In u l -> t <= u.
Proof.
  simpl. intros [H _] Hin. rewrite Forall_forall in H. apply H, Hin.
Qed.

Lemma last_default_or_in (l : list Z) (t : Z) :
  (l = [] /\ last l t = t) \/ In (last l t) l.
Proof.
  induction l as [|a l IH]; [left; split; reflexivity|].
  right. destruct IH as [[-> _] | IH]; simpl.
  - left. reflexivity.
  - destruct l as [|b l']; [destruct IH|]. right. exact IH.
Qed.

(** C5: in every run of the gated [main] under a monotonic clock, what
    happens between enabling and disabling the engine is: the read of
    [start_time], then time test / A / B / C / D, repeated, then the time
    test that fails. The test is never made between the pushes of one
    quadruple. From [start_time] to the failing test at least
    [SIGNAL_DURATION_US] elapse, and less than [SIGNAL_DURATION_US] plus
    the time since the preceding test, which is the time the last
    quadruple took. *)
Theorem session_floor (d : DelaySet) (tr : list event) (p : Gated.pc)
    (pre mid post : list event) :
  Gated.exec d Gated.Poll tr p ->
  tr = pre ++ EvEnable true :: mid ++ EvEnable false :: post ->
  no_enable mid = true ->
  monotone (times tr) ->
  exists t0 ts tn,
    mid = EvTime t0 :: flat_map (Gated.round_trip d) ts ++ [EvTime tn] /\
    Gated.SIGNAL_DURATION_US <= tn - t0 /\
    tn - t0 < Gated.SIGNAL_DURATION_US + (tn - last ts t0).
Proof.
  intros Hexec -> Hmid Hmono.
  apply gated_exec_app in Hexec. destruct Hexec as [q [_ Hexec]].
  inversion Hexec as [|p0 e0 p1 tr0 p2 Hstep Hrest]; subst.
  inversion Hstep; subst. clear Hstep Hexec.
  destruct mid as [|e mid'].
  { simpl in Hrest. inversion Hrest as [|p0 e0 p1 tr0 p2 Hstep _]; subst.
    inversion Hstep. }
  simpl in Hrest. inversion Hrest as [|p0 e0 p1 tr0 p2 Hstep Hfeed]; subst.
  inversion Hstep as [| | |t0 Ht0| | | | | | | | | | |]; subst. clear Hstep Hrest.
  simpl in Hmid.
  destruct (feeder_shape d _ _ _ Hfeed t0 [] mid' post eq_refl eq_refl Hmid)
    as [ts [tn [-> [Hts [Htn Hw]]]]].
  exists t0, ts, tn. split; [reflexivity|].
  (* the readings of this session, in order *)
  rewrite times_app in Hmono. apply monotone_app_r in Hmono.
  simpl in Hmono. rewrite !times_app, times_round_trips in Hmono.
  simpl in Hmono. destruct Hmono as [Hmono _].
  rewrite Forall_forall in Hmono.
  assert (Hle : t0 <= tn).
  { apply Hmono. rewrite <- app_assoc. apply in_or_app. right. left. reflexivity. }
  rewrite within_duration_elapsed in Hw by assumption.
  apply Z.ltb_ge in Hw. split; [exact Hw|].
  destruct (last_default_or_in ts t0) as [[_ ->] | Hin].
  - unfold Gated.SIGNAL_DURATION_US. lia.
  - assert (Hlp : t0 <= last ts t0)
      by (apply Hmono; rewrite <- app_assoc; apply in_or_app; left; exact Hin).
    rewrite Forall_forall in Hts. destruct (Hts _ Hin) as [Hl Hwl].
    rewrite within_duration_elapsed in Hwl by assumption.
    apply Z.ltb_lt in Hwl. lia.
Qed.

Lemma session_floor_witness :
  exists t0 ts tn,
    [EvTime 0; EvTime 10; EvPut 46; EvPut 46; EvPut 46; EvPut 9846;
     EvTime 5000003]
    = EvTime t0 :: flat_map (Gated.round_trip default_delays) ts ++ [EvTime tn] /\
    Gated.SIGNAL_DURATION_US <= tn - t0 /\
    tn - t0 < Gated.SIGNAL_DURATION_US + (tn - last ts t0).
Proof.
  apply (session_floor default_delays
           [EvGpio false; EvEnable true; EvTime 0; EvTime 10; EvPut 46;
            EvPut 46; EvPut 46; EvPut 9846; EvTime 5000003; EvEnable false]
           Gated.WaitRelease
           [EvGpio false]
           [EvTime 0; EvTime 10; EvPut 46; EvPut 46; EvPut 46; EvPut 9846;
            EvTime 5000003]
           []).
  - eapply Gated.exec_cons; [apply Gated.step_pressed|].
    eapply Gated.exec_cons; [apply Gated.step_enable|].
    eapply Gated.exec_cons;
      [apply Gated.step_start; unfold Gated.is_time, Gated.u64_mod; lia|].
    eapply Gated.exec_cons;
      [apply Gated.step_feed;
       [unfold Gated.is_time, Gated.u64_mod; lia | reflexivity]|].
    eapply Gated.exec_cons; [apply (Gated.step_put_A default_delays)|].
    eapply Gated.exec_cons; [apply (Gated.step_put_B default_delays)|].
    eapply Gated.exec_cons; [apply (Gated.step_put_C default_delays)|].
    eapply Gated.exec_cons; [apply (Gated.step_put_D default_delays)|].
    eapply Gated.exec_cons;
      [apply Gated.step_elapsed;
       [unfold Gated.is_time, Gated.u64_mod; lia | reflexivity]|].
    eapply Gated.exec_cons; [apply Gated.step_disable|].
    apply Gated.exec_nil.
  - reflexivity.
  - reflexivity.
  - simpl. repeat constructor; lia.
Defined.

(** ** Further properties of the trigger controller and the feeders *)

Lemma gated_engine_tracks (d : DelaySet) (p : Gated.pc) (tr : list event)
    (p' : Gated.pc) :
  Gated.exec d p tr p' ->
  engine_on_from (gated_enabled p) tr = gated_enabled p'.
Proof.
  induction 1 as [p | p e p1 tr p2 Hstep Hexec IH]; [reflexivity|].
  destruct Hstep; simpl in *; exact IH.
Qed.

Lemma gated_step_engine (d : DelaySet) (p : Gated.pc) (e : event)
    (p' : Gated.pc) :
  Gated.step d p e p' -> gated_enabled p = engine_before e.
Proof. destruct 1; reflexivity. Qed.

(** X1: in every run of the gated [main], values are pushed and the clock
    is read only while the state machine is enabled, the button is polled
    and [tight_loop_contents] is called only while it is disabled, and
    [pio_sm_set_enabled] is only ever called to change its state, so
    enabling and disabling alternate. *)
Theorem gated_engine_discipline (d : DelaySet) (tr : list event) (p : Gated.pc)
    (pre : list event) (e : event) (post : list event) :
  Gated.exec d Gated.Poll tr p ->
  tr = pre ++ e :: post ->
  engine_on pre = engine_before e.
Proof.
  intros Hexec ->.
  apply gated_exec_app in Hexec. destruct Hexec as [q [Hpre Hrest]].
  apply gated_engine_tracks in Hpre. simpl in Hpre.
  unfold engine_on. rewrite Hpre.
  inversion Hrest as [|p0 e0 p1 tr0 p2 Hstep _]; subst.
  eapply gated_step_engine. exact Hstep.
Qed.

Lemma gated_engine_discipline_witness :
  engine_on [EvGpio false; EvEnable true; EvTime 0; EvTime 1; EvPut 46]
  = engine_before (EvPut 46).
Proof.
  apply (gated_engine_discipline default_delays
           [EvGpio false; EvEnable true; EvTime 0; EvTime 1; EvPut 46;
            EvPut 46; EvPut 46]
           (Gated.PutD 0)
           [EvGpio false; EvEnable true; EvTime 0; EvTime 1; EvPut 46]
           (EvPut 46) [EvPut 46]).
  - eapply Gated.exec_cons; [apply Gated.step_pressed|].
    eapply Gated.exec_cons; [apply Gated.step_enable|].
    eapply Gated.exec_cons;
      [apply Gated.step_start; unfold Gated.is_time, Gated.u64_mod; lia|].
    eapply Gated.exec_cons;
      [apply Gated.step_feed;
       [unfold Gated.is_time, Gated.u64_mod; lia | reflexivity]|].
    eapply Gated.exec_cons; [apply (Gated.step_put_A default_delays)|].
    eapply Gated.exec_cons; [apply (Gated.step_put_B default_delays)|].
    eapply Gated.exec_cons; [apply (Gated.step_put_C default_delays)|].
    apply Gated.exec_nil.
  - reflexivity.
Defined.

Lemma gated_step_phase (d : DelaySet) (p : Gated.pc) (e : event)
    (p' : Gated.pc) :
  Gated.step d p e p' -> is_put e = false -> Gated.phase p = 0%nat.
Proof. destruct 1; simpl; intros H; try reflexivity; discriminate. Qed.

(** X2: in every run of the gated [main], whenever it does anything other
    than push (tests the time, disables the engine, polls the button),
    the values pushed so far are whole A, B, C, D quadruples: the engine
    is never stopped with part of a quadruple pushed. *)
Theorem gated_stops_on_quadruple (d : DelaySet) (tr : list event)
    (p : Gated.pc) (pre : list event) (e : event) (post : list event) :
  Gated.exec d Gated.Poll tr p ->
  tr = pre ++ e :: post ->
  is_put e = false ->
  exists k : nat, puts pre = concat (repeat (quadruple d) k).
Proof.
  intros Hexec -> He.
  apply gated_exec_app in Hexec. destruct Hexec as [q [Hpre Hrest]].
  inversion Hrest as [|p0 e0 p1 tr0 p2 Hstep _]; subst.
  apply gated_puts_phase in Hpre. destruct Hpre as [k Hk].
  rewrite (gated_step_phase _ _ _ _ Hstep He) in Hk. simpl in Hk.
  exists k. rewrite Hk. apply app_nil_r.
Qed.

Lemma gated_stops_on_quadruple_witness :
  exists k : nat,
    puts [EvGpio false; EvEnable true; EvTime 0; EvTime 10; EvPut 46;
          EvPut 46; EvPut 46; EvPut 9846; EvTime 5000003]
    = concat (repeat (quadruple default_delays) k).
Proof.
  apply (gated_stops_on_quadruple default_delays
           [EvGpio false; EvEnable true; EvTime 0; EvTime 10; EvPut 46;
            EvPut 46; EvPut 46; EvPut 9846; EvTime 5000003; EvEnable false]
           Gated.WaitRelease
           [EvGpio false; EvEnable true; EvTime 0; EvTime 10; EvPut 46;
            EvPut 46; EvPut 46; EvPut 9846; EvTime 5000003]
           (EvEnable false) []).
  - eapply Gated.exec_cons; [apply Gated.step_pressed|].
    eapply Gated.exec_cons; [apply Gated.step_enable|].
    eapply Gated.exec_cons;
      [apply Gated.step_start; unfold Gated.is_time, Gated.u64_mod; lia|].
    eapply Gated.exec_cons;
      [apply Gated.step_feed;
       [unfold Gated.is_time, Gated.u64_mod; lia | reflexivity]|].
    eapply Gated.exec_cons; [apply (Gated.step_put_A default_delays)|].
    eapply Gated.exec_cons; [apply (Gated.step_put_B default_delays)|].
    eapply Gated.exec_cons; [apply (Gated.step_put_C default_delays)|].
    eapply Gated.exec_cons; [apply (Gated.step_put_D default_delays)|].
    eapply Gated.exec_cons;
      [apply Gated.step_elapsed;
       [unfold Gated.is_time, Gated.u64_mod; lia | reflexivity]|].
    eapply Gated.exec_cons; [apply Gated.step_disable|].
    apply Gated.exec_nil.
  - reflexivity.
  - reflexivity.
Defined.

Lemma gated_reaches_enabling (d : DelaySet) (p : Gated.pc) (tr : list event)
    (p' : Gated.pc) :
  Gated.exec d p tr p' ->
  p' = Gated.Enabling ->
  tr = [] \/ exists tr', tr = tr' ++ [EvGpio false].
Proof.
  induction 1 as [p | p e p1 tr p2 Hstep Hexec IH]; intros Hp.
  - left. reflexivity.
  - right. destruct (IH Hp) as [-> | [tr' ->]].
    + inversion Hexec; subst. inversion Hstep; subst.
      exists []. reflexivity.
    + exists (e :: tr'). reflexivity.
Qed.

(** X3: in every run of the gated [main], each call that enables the
    state machine comes directly after a [gpio_get] that returned low: a
    session is never started without the button having just been read
    pressed. *)
Theorem enable_follows_press (d : DelaySet) (tr : list event) (p : Gated.pc)
    (pre post : list event) :
  Gated.exec d Gated.Poll tr p ->
  tr = pre ++ EvEnable true :: post ->
  exists pre', pre = pre' ++ [EvGpio false].
Proof.
  intros Hexec ->.
  apply gated_exec_app in Hexec. destruct Hexec as [q [Hpre Hrest]].
  inversion Hrest as [|p0 e0 p1 tr0 p2 Hstep _]; subst.
  inversion Hstep; subst.
  destruct (gated_reaches_enabling _ _ _ _ Hpre eq_refl) as [-> | H].
  - inversion Hpre.
  - exact H.
Qed.

Lemma enable_follows_press_witness :
  exists pre', [EvGpio true; EvTight; EvGpio false] = pre' ++ [EvGpio false].
Proof.
  apply (enable_follows_press default_delays
           [EvGpio true; EvTight; EvGpio false; EvEnable true]
           Gated.StartTimer
           [EvGpio true; EvTight; EvGpio false] []).
  - eapply Gated.exec_cons; [apply Gated.step_idle|].
    eapply Gated.exec_cons; [apply Gated.step_spin_idle|].
    eapply Gated.exec_cons; [apply Gated.step_pressed|].
    eapply Gated.exec_cons; [apply Gated.step_enable|].
    apply Gated.exec_nil.
  - reflexivity.
Defined.

Lemma gated_step_not_return (d : DelaySet) (p : Gated.pc) (e : event)
    (p' : Gated.pc) :
  Gated.step d p e p' -> p' <> Gated.Return.
Proof. destruct 1; discriminate. Qed.

Lemma gated_exec_not_return (d : DelaySet) (p : Gated.pc) (tr : list event)
    (p' : Gated.pc) :
  Gated.exec d p tr p' -> p <> Gated.Return -> p' <> Gated.Return.
Proof.
  induction 1 as [p | p e p1 tr p2 Hstep Hexec IH]; intros Hp.
  - exact Hp.
  - apply IH. eapply gated_step_not_return; eassumption.
Qed.

Lemma is_time_0 : Gated.is_time 0.
Proof. unfold Gated.is_time, Gated.u64_mod. lia. Qed.

Lemma gated_progress (d : DelaySet) (p : Gated.pc) :
  p <> Gated.Return -> exists e p', Gated.step d p e p'.
Proof.
  destruct p as [| | |s|s|s|s|s| | | | |]; intros H;
    try (eexists; eexists; constructor; fail).
  - exists (EvTime 0). eexists. constructor. exact is_time_0.
  - destruct (Gated.within_duration s 0) eqn:E.
    + exists (EvTime 0). eexists. apply Gated.step_feed; [exact is_time_0 | exact E].
    + exists (EvTime 0). eexists. apply Gated.step_elapsed; [exact is_time_0 | exact E].
  - congruence.
Qed.

Lemma gated_receptive (d : DelaySet) (p : Gated.pc) (e : event)
    (p1 : Gated.pc) (e' : event) :
  Gated.step d p e p1 -> same_call e e' -> exists p2, Gated.step d p e' p2.
Proof.
  intros Hstep Hsame.
  destruct Hstep; destruct e' as [b'|v'|l'|t'|]; simpl in Hsame;
    try contradiction; subst;
    try (eexists; constructor; assumption; fail);
    try (eexists; constructor; fail).
  - destruct l'; eexists; constructor.
  - destruct l'; eexists; constructor.
  - destruct (Gated.within_duration s t') eqn:E.
    + eexists. apply Gated.step_feed; eassumption.
    + eexists. apply Gated.step_elapsed; eassumption.
  - destruct (Gated.within_duration s t') eqn:E.
    + eexists. apply Gated.step_feed; eassumption.
    + eexists. apply Gated.step_elapsed; eassumption.
  - destruct l'; eexists; constructor.
  - destruct l'; eexists; constructor.
Qed.

(** X4: the gated [main] never returns: no run reaches the end of the
    function; in every state a run reaches there is a next call; and
    whatever that call returns (either button level, any 64-bit time)
    [main] has a step for it. *)
Theorem gated_never_returns (d : DelaySet) (tr : list event) (p : Gated.pc) :
  Gated.exec d Gated.Poll tr p ->
  p <> Gated.Return /\
  (exists e p', Gated.step d p e p') /\
  (forall e p1 e',
     Gated.step d p e p1 -> same_call e e' ->
     exists p2, Gated.step d p e' p2).
Proof.
  intros H.
  assert (Hp : p <> Gated.Return)
    by (eapply gated_exec_not_return; [exact H | discriminate]).
  split; [exact Hp|]. split; [apply gated_progress; exact Hp|].
  intros e p1 e' Hstep Hsame. eapply gated_receptive; eassumption.
Qed.

Lemma gated_never_returns_witness :
  Gated.Poll <> Gated.Return /\
  (exists e p', Gated.step default_delays Gated.Poll e p') /\
  (forall e p1 e',
     Gated.step default_delays Gated.Poll e p1 -> same_call e e' ->
     exists p2, Gated.step default_delays Gated.Poll e' p2).
Proof.
  apply (gated_never_returns default_delays
           [EvGpio false; EvEnable true; EvTime 0; EvTime 5000000;
            EvEnable false; EvGpio true; EvTight]).
  eapply Gated.exec_cons; [apply Gated.step_pressed|].
  eapply Gated.exec_cons; [apply Gated.step_enable|].
  eapply Gated.exec_cons;
    [apply Gated.step_start; unfold Gated.is_time, Gated.u64_mod; lia|].
  eapply Gated.exec_cons;
    [apply Gated.step_elapsed;
     [unfold Gated.is_time, Gated.u64_mod; lia | reflexivity]|].
  eapply Gated.exec_cons; [apply Gated.step_disable|].
  eapply Gated.exec_cons; [apply Gated.step_released|].
  eapply Gated.exec_cons; [apply Gated.step_spin_idle|].
  apply Gated.exec_nil.
Defined.

Lemma feeder_passes (d : DelaySet) (s : Z) (ts : list Z) :
  forall rest p,
    Gated.exec d (Gated.LoopTest s)
               (flat_map (Gated.round_trip d) ts ++ rest) p ->
    Forall (fun t => Gated.is_time t /\ Gated.within_duration s t = true) ts.
Proof.
  induction ts as [|t ts IH]; intros rest p H; [constructor|].
  simpl in H.
  inversion H as [|p0 e0 p1 tr0 p2 Hstep H1]; subst.
  inversion Hstep as [| | | |s0 t0 Ht Hw|s0 t0 Ht Hw| | | | | | | | |]; subst.
  - inversion H1 as [|p0 e0 p1 tr0 p2 HsA H2]; subst. inversion HsA; subst.
    inversion H2 as [|p0 e0 p1 tr0 p2 HsB H3]; subst. inversion HsB; subst.
    inversion H3 as [|p0 e0 p1 tr0 p2 HsC H4]; subst. inversion HsC; subst.
    inversion H4 as [|p0 e0 p1 tr0 p2 HsD H5]; subst. inversion HsD; subst.
    constructor; [split; assumption|].
    eapply IH. exact H5.
  - inversion H1 as [|p0 e0 p1 tr0 p2 HsA H2]; subst. inversion HsA.
Qed.

Lemma increasing_app_r (a b : list Z) : increasing (a ++ b) -> increasing b.
Proof.
  induction a as [|t a IH]; simpl; [tauto|]. intros [_ H]. apply IH, H.
Qed.

Lemma increasing_app_l (a b : list Z) : increasing (a ++ b) -> increasing a.
Proof.
  induction a as [|t a IH]; simpl; [tauto|].
  intros [H1 H2]. split; [|apply IH, H2].
  apply Forall_app in H1. apply H1.
Qed.

(** Integers that increase strictly inside an open interval are fewer
    than the interval is long. *)
Lemma increasing_bounded (ts : list Z) :
  forall lo hi,
    lo < hi ->
    Forall (fun t => lo < t) ts ->
    increasing ts ->
    Forall (fun t => t < hi) ts ->
    Z.of_nat (length ts) < hi - lo.
Proof.
  induction ts as [|t ts IH]; intros lo hi Hlh Hlo Hinc Hhi.
  - simpl. lia.
  - inversion Hlo as [|? ? Hlt Hlo']; subst.
    inversion Hhi as [|? ? Hth Hhi']; subst.
    destruct Hinc as [Ht Hinc].
    specialize (IH t hi Hth Ht Hinc Hhi').
    change (length (t :: ts)) with (S (length ts)).
    rewrite Nat2Z.inj_succ. lia.
Qed.

(** X5: in the gated [main], when the clock advances between any two
    readings, a session pushes fewer than 5,000,000 quadruples before its
    time test fails: the feeder loop cannot run on indefinitely. *)
Theorem session_is_bounded (d : DelaySet) (tr : list event) (p : Gated.pc)
    (pre : list event) (t0 : Z) (ts : list Z) (post : list event) :
  Gated.exec d Gated.Poll tr p ->
  tr = pre ++ EvEnable true :: EvTime t0
           :: flat_map (Gated.round_trip d) ts ++ post ->
  increasing (times tr) ->
  Z.of_nat (length ts) < Gated.SIGNAL_DURATION_US.
Proof.
  intros Hexec -> Hinc.
  apply gated_exec_app in Hexec. destruct Hexec as [q [_ Hexec]].
  inversion Hexec as [|p0 e0 p1 tr0 p2 Hstep Hrest]; subst.
  inversion Hstep; subst. clear Hstep Hexec.
  inversion Hrest as [|p0 e0 p1 tr0 p2 Hstep Hfeed]; subst.
  inversion Hstep as [| | |t Ht0| | | | | | | | | | |]; subst.
  clear Hstep Hrest.
  apply feeder_passes in Hfeed.
  rewrite times_app in Hinc. apply increasing_app_r in Hinc.
  simpl in Hinc. rewrite times_app, times_round_trips in Hinc.
  destruct Hinc as [Hgt Hinc].
  apply increasing_app_l in Hinc.
  apply Forall_app in Hgt. destruct Hgt as [Hgt _].
  replace Gated.SIGNAL_DURATION_US
    with ((t0 + Gated.SIGNAL_DURATION_US) - t0) by lia.
  apply increasing_bounded; try assumption.
  - unfold Gated.SIGNAL_DURATION_US. lia.
  - rewrite Forall_forall in Hfeed, Hgt |- *.
    intros t Hin. destruct (Hfeed t Hin) as [Ht Hw].
    specialize (Hgt t Hin).
    rewrite within_duration_elapsed in Hw by (try assumption; lia).
    apply Z.ltb_lt in Hw. lia.
Qed.

Lemma session_is_bounded_witness :
  Z.of_nat (length [10; 20]) < Gated.SIGNAL_DURATION_US.
Proof.
  apply (session_is_bounded default_delays
           ([EvGpio false] ++ EvEnable true :: EvTime 0
              :: flat_map (Gated.round_trip default_delays) [10; 20]
              ++ [EvTime 30])
           (Gated.PutA 0) [EvGpio false] 0 [10; 20] [EvTime 30]).
  - simpl.
    eapply Gated.exec_cons; [apply Gated.step_pressed|].
    eapply Gated.exec_cons; [apply Gated.step_enable|].
    eapply Gated.exec_cons;
      [apply Gated.step_start; unfold Gated.is_time, Gated.u64_mod; lia|].
    eapply Gated.exec_cons;
      [apply Gated.step_feed;
       [unfold Gated.is_time, Gated.u64_mod; lia | reflexivity]|].
    eapply Gated.exec_cons; [apply (Gated.step_put_A default_delays)|].
    eapply Gated.exec_cons; [apply (Gated.step_put_B default_delays)|].
    eapply Gated.exec_cons; [apply (Gated.step_put_C default_delays)|].
    eapply Gated.exec_cons; [apply (Gated.step_put_D default_delays)|].
    eapply Gated.exec_cons;
      [apply Gated.step_feed;
       [unfold Gated.is_time, Gated.u64_mod; lia | reflexivity]|].
    eapply Gated.exec_cons; [apply (Gated.step_put_A default_delays)|].
    eapply Gated.exec_cons; [apply (Gated.step_put_B default_delays)|].
    eapply Gated.exec_cons; [apply (Gated.step_put_C default_delays)|].
    eapply Gated.exec_cons; [apply (Gated.step_put_D default_delays)|].
    eapply Gated.exec_cons;
      [apply Gated.step_feed;
       [unfold Gated.is_time, Gated.u64_mod; lia | reflexivity]|].
    apply Gated.exec_nil.
  - reflexivity.
  - simpl. repeat constructor; lia.
Defined.

Lemma continuous_loop_only_pushes (d : DelaySet) (p : Continuous.pc)
    (tr : list event) (p' : Continuous.pc) :
  Continuous.exec d p tr p' ->
  p <> Continuous.Enable ->
  tr = map EvPut (puts tr) /\ p' <> Continuous.Enable.
Proof.
  induction 1 as [p | p e p1 tr p2 Hstep Hexec IH]; intros Hp.
  - split; [reflexivity | exact Hp].
  - destruct Hstep; try congruence;
      (destruct IH as [IH1 IH2]; [discriminate|];
       split; [simpl; f_equal; exact IH1 | exact IH2]).
Qed.

(** X6: in the continuous [main], the state machine is enabled exactly
    once, before the first push, and every later call is a push: the
    engine is never disabled again, and neither the button nor the clock
    is ever read. *)
Theorem continuous_enabled_once (d : DelaySet) (tr : list event)
    (p : Continuous.pc) :
  Continuous.exec d Continuous.Enable tr p ->
  tr <> [] ->
  tr = EvEnable true :: map EvPut (puts tr) /\ engine_on tr = true.
Proof.
  intros H Hne.
  inversion H as [|p0 e0 p1 tr0 p2 Hstep Hrest]; subst; [congruence|].
  inversion Hstep; subst.
  apply continuous_loop_only_pushes in Hrest; [|discriminate].
  destruct Hrest as [Htr _].
  simpl. split; [f_equal; exact Htr|].
  unfold engine_on. simpl. rewrite Htr.
  clear. induction (puts tr0) as [|v l IH]; [reflexivity | exact IH].
Qed.

Lemma continuous_enabled_once_witness :
  [EvEnable true; EvPut 46; EvPut 46]
  = EvEnable true :: map EvPut (puts [EvEnable true; EvPut 46; EvPut 46]) /\
  engine_on [EvEnable true; EvPut 46; EvPut 46] = true.
Proof.
  apply (continuous_enabled_once default_delays
           [EvEnable true; EvPut 46; EvPut 46] Continuous.PutC).
  - eapply Continuous.exec_cons; [apply Continuous.step_enable|].
    eapply Continuous.exec_cons; [apply (Continuous.step_put_A default_delays)|].
    eapply Continuous.exec_cons; [apply (Continuous.step_put_B default_delays)|].
    apply Continuous.exec_nil.
  - discriminate.
Defined.

(** ** Further properties of the delay calculations *)

Lemma eta_tiny : (eta <= / 1099511627776)%R.
Proof.
  unfold eta.
  assert (H : (powerRZ 2 (-149) * powerRZ 2 149 = 1)%R).
  { rewrite <- powerRZ2_add. reflexivity. }
  assert (H1 : (1099511627776 <= powerRZ 2 149)%R).
  { eapply Rle_trans; [|apply (powerRZ2_le 40 149); lia].
    rewrite <- IZR_pow2 by lia. apply IZR_le. apply Z.leb_le. reflexivity. }
  pose proof (powerRZ2_pos (-149)) as H2.
  assert (H3 : (powerRZ 2 (-149) * 1099511627776
                <= powerRZ 2 (-149) * powerRZ 2 149)%R)
    by (apply Rmult_le_compat_l; lra).
  lra.
Qed.

(** The two casts of the gated calculation at a positive tick frequency
    [m * 2^e], bracketed in the reals; [Y] is the tick frequency divided
    by 2^41. *)
Lemma gated_cast_bounds (m : positive) (e : Z) (t a : Z) :
  F32.to_uint32 (F32.mul (S754_finite false 8589935 (-33))
                         (S754_finite false m e)) = Some t ->
  F32.to_uint32 (F32.mul (S754_finite false 10995116 (-41))
                         (S754_finite false m e)) = Some a ->
  exists Y : R,
    (0 < Y)%R /\
    F2R (Zpos m) e = (2199023255552 * Y)%R /\
    (IZR a <= 10995116 * Y + (10995116 * Y / 8388608 + eta))%R /\
    (10995116 * Y - (10995116 * Y / 8388608 + eta) < IZR a + 1)%R /\
    (IZR t <= 2199023360 * Y + (2199023360 * Y / 8388608 + eta))%R /\
    (2199023360 * Y - (2199023360 * Y / 8388608 + eta) < IZR t + 1)%R.
Proof.
  intros Ht Ha.
  change (F32.mul (S754_finite false 8589935 (-33)) (S754_finite false m e))
    with (binary_round_aux F32.prec F32.emax false (Zpos (8589935 * m)) (-33 + e) loc_Exact)
    in Ht.
  change (F32.mul (S754_finite false 10995116 (-41)) (S754_finite false m e))
    with (binary_round_aux F32.prec F32.emax false (Zpos (10995116 * m)) (-41 + e) loc_Exact)
    in Ha.
  pose proof (binary_round_aux_error false (10995116 * m) (-41 + e)) as Ea.
  pose proof (binary_round_aux_error false (8589935 * m) (-33 + e)) as Et.
  cbv zeta in Ea, Et.
  set (ra := binary_round_aux F32.prec F32.emax false (Zpos (10995116 * m)) (-41 + e) loc_Exact) in *.
  set (rt := binary_round_aux F32.prec F32.emax false (Zpos (8589935 * m)) (-33 + e) loc_Exact) in *.
  destruct Ea as [[Ea _] | [Fa Ea]]; [rewrite Ea in Ha; discriminate|].
  destruct Et as [[Et _] | [Ft Et]]; [rewrite Et in Ht; discriminate|].
  apply to_uint32_trunc in Ha, Ht.
  destruct Ha as [Ha _], Ht as [Ht _].
  pose proof (trunc_bracket _ _ Fa Ha) as Ba.
  pose proof (trunc_bracket _ _ Ft Ht) as Bt.
  unfold F2R in Ea, Et |- *.
  rewrite Pos2Z.inj_mul, mult_IZR in Ea, Et.
  replace (-33 + e) with (8 + (-41 + e)) in Et by lia.
  rewrite powerRZ2_add in Et.
  replace (powerRZ 2 8) with 256%R in Et
    by (rewrite <- IZR_pow2 by lia; reflexivity).
  pose proof (powerRZ2_pos (-41 + e)) as HP.
  assert (HM : (1 <= IZR (Zpos m))%R) by (apply IZR_le; lia).
  exists (IZR (Zpos m) * powerRZ 2 (-41 + e))%R.
  set (Y := (IZR (Zpos m) * powerRZ 2 (-41 + e))%R) in *.
  assert (HY : (0 < Y)%R) by (apply Rmult_lt_0_compat; lra).
  replace (IZR 10995116 * IZR (Zpos m) * powerRZ 2 (-41 + e))%R
    with (10995116 * Y)%R in Ea by (unfold Y; ring).
  replace (IZR 8589935 * IZR (Zpos m) * (256 * powerRZ 2 (-41 + e)))%R
    with (2199023360 * Y)%R in Et by (unfold Y; ring).
  split; [exact HY|]. split.
  - replace e with (41 + (-41 + e)) at 1 by lia.
    rewrite powerRZ2_add.
    replace (powerRZ 2 41) with 2199023255552%R
      by (rewrite <- IZR_pow2 by lia; reflexivity).
    unfold Y. ring.
  - repeat split; lra.
Qed.

Lemma negative_tick_cast (mc : positive) (ec : Z) (m : positive) (e : Z)
    (a : Z) :
  F32.to_uint32 (F32.mul (S754_finite false mc ec) (S754_finite true m e))
  = Some a ->
  a = 0.
Proof.
  intros Ha.
  change (F32.mul (S754_finite false mc ec) (S754_finite true m e))
    with (binary_round_aux F32.prec F32.emax true (Zpos (mc * m)) (ec + e) loc_Exact)
    in Ha.
  destruct (binary_round_aux_error true (mc * m) (ec + e)) as [[E _] | [F _]].
  - rewrite E in Ha. discriminate.
  - eapply to_uint32_negative; eassumption.
Qed.

(** Whatever the tick frequency [f], a pulse takes at most 1/199 of the
    period, in truncated cycles. *)
Lemma pulse_share (f : float32) (t a : Z) :
  F32.to_uint32 (F32.mul (S754_finite false 8589935 (-33)) f) = Some t ->
  F32.to_uint32 (F32.mul (S754_finite false 10995116 (-41)) f) = Some a ->
  199 * a <= t.
Proof.
  intros Ht Ha.
  pose proof (to_uint32_range _ _ Ht) as Rt.
  destruct f as [s | s | | s m e]; try discriminate.
  - assert (a = 0) by (vm_compute in Ha; congruence). lia.
  - destruct s.
    + apply negative_tick_cast in Ha. lia.
    + pose proof (to_uint32_range _ _ Ha) as Ra.
      destruct (gated_cast_bounds _ _ _ _ Ht Ha)
        as [Y [HY [_ [Ha1 [_ [_ Ht2]]]]]].
      destruct (Z_le_gt_dec a 0) as [Ha0 | Ha0]; [lia|].
      assert (Ha' : (1 <= IZR a)%R) by (apply IZR_le; lia).
      pose proof eta_bounds as Heta.
      assert (Hlt : (199 * IZR a < IZR t + 1)%R) by lra.
      replace 199%R with (IZR 199) in Hlt by reflexivity.
      replace 1%R with (IZR 1) in Hlt by reflexivity.
      rewrite <- mult_IZR, <- plus_IZR in Hlt. apply lt_IZR in Hlt. lia.
Qed.

Lemma pio_cycles_inv (sys_clk_hz pio_clk_div : float32) (c : Gated.PioCycles) :
  Gated.pio_cycles sys_clk_hz pio_clk_div = Some c ->
  F32.to_uint32 (F32.mul (S754_finite false 8589935 (-33))
                         (F32.div sys_clk_hz pio_clk_div))
  = Some (Gated.total_pio_cycles c) /\
  F32.to_uint32 (F32.mul (S754_finite false 10995116 (-41))
                         (F32.div sys_clk_hz pio_clk_div))
  = Some (Gated.pulse_width_cycles c) /\
  Gated.phase_shift_cycles c = Gated.pulse_width_cycles c.
Proof.
  unfold Gated.pio_cycles. intros H.
  apply obind_Some in H. destruct H as [t [Ht H]].
  apply obind_Some in H. destruct H as [pw [Hpw H]].
  apply obind_Some in H. destruct H as [ps [Hps H]].
  injection H as <-. simpl.
  rewrite period_s_value in Ht.
  rewrite pulse_width_s_value in Hpw.
  rewrite phase_shift_s_value in Hps.
  repeat split; [exact Ht | exact Hpw | congruence].
Qed.

(** X7: in the gated calculation, for every clock and divider for which
    the casts are defined, 199 times the pulse width in cycles is at most
    the period in cycles, and so the idle phase D is at least 196 pulse
    widths long. *)
Theorem gated_pulse_share (sys_clk_hz pio_clk_div : float32)
    (c : Gated.PioCycles) :
  Gated.pio_cycles sys_clk_hz pio_clk_div = Some c ->
  199 * Gated.pulse_width_cycles c <= Gated.total_pio_cycles c /\
  196 * cycles_A (Gated.event_durations c) <= cycles_D (Gated.event_durations c).
Proof.
  intros H.
  pose proof (event_D_exact _ _ _ H) as HD.
  destruct (pio_cycles_inv _ _ _ H) as (Ht & Ha & Hps).
  pose proof (pulse_share _ _ _ Ht Ha) as Hs.
  split; [exact Hs|].
  rewrite HD, Hps.
  change (cycles_A (Gated.event_durations c)) with (Gated.pulse_width_cycles c).
  lia.
Qed.

Lemma gated_pulse_share_witness :
  199 * 50 <= 10000 /\ 196 * 50 <= 9850.
Proof.
  apply (gated_pulse_share clk_sys_default lit_12_5
           (Gated.mkPioCycles 10000 50 50)).
  vm_compute. reflexivity.
Defined.

Lemma sub_overhead_plus_4 (x : Z) :
  0 <= x < u32_mod -> sub_overhead x + 4 = Z.max x 4.
Proof.
  intros Hx. unfold sub_overhead.
  destruct (4 <? x) eqn:E.
  - apply Z.ltb_lt in E. rewrite sub32_exact by lia. lia.
  - apply Z.ltb_ge in E. lia.
Qed.

(** X8: in the gated variant, the period the engine emits (each delay
    plus its four cycles of overhead) is never shorter than
    [total_pio_cycles], and it is exactly [total_pio_cycles] if and only if
    the pulse width is at least 4 cycles: below that, clamping stretches
    the period. *)
Theorem gated_emitted_period (sys_clk_hz pio_clk_div : float32)
    (c : Gated.PioCycles) :
  Gated.pio_cycles sys_clk_hz pio_clk_div = Some c ->
  exists d,
    Gated.calculate_delays sys_clk_hz pio_clk_div = Some d /\
    Gated.total_pio_cycles c <= emitted_period d /\
    (emitted_period d = Gated.total_pio_cycles c
     <-> 4 <= Gated.pulse_width_cycles c).
Proof.
  intros H.
  exists (delays_of_cycles (Gated.event_durations c)). split.
  { unfold Gated.calculate_delays, Gated.cycles. rewrite H. reflexivity. }
  pose proof (event_D_exact _ _ _ H) as HD.
  destruct (pio_cycles_inv _ _ _ H) as (Ht & Ha & Hps).
  pose proof (pulse_share _ _ _ Ht Ha) as Hs.
  pose proof (to_uint32_range _ _ Ht) as Rt.
  pose proof (to_uint32_range _ _ Ha) as Ra.
  assert (HA : cycles_A (Gated.event_durations c) = Gated.pulse_width_cycles c)
    by reflexivity.
  assert (HB : cycles_B (Gated.event_durations c) = Gated.phase_shift_cycles c)
    by reflexivity.
  assert (HC : cycles_C (Gated.event_durations c) = Gated.pulse_width_cycles c)
    by reflexivity.
  unfold emitted_period, delays_of_cycles.
  cbn [delay_A delay_B delay_C delay_D].
  rewrite HD, HA, HB, HC, Hps.
  rewrite !sub_overhead_plus_4 by lia.
  lia.
Qed.

Lemma gated_emitted_period_witness :
  exists d,
    Gated.calculate_delays clk_sys_default lit_12_5 = Some d /\
    10000 <= emitted_period d /\
    (emitted_period d = 10000 <-> 4 <= 50).
Proof.
  apply (gated_emitted_period clk_sys_default lit_12_5
           (Gated.mkPioCycles 10000 50 50)).
  vm_compute. reflexivity.
Defined.

(** X9: in the gated variant, at a tick frequency of at most 999 999 Hz
    the pulse and the phase shift are shorter than the overhead and A, B
    and C are clamped to 0; from 1 000 001 Hz on each of them is at least
    1. *)
Theorem gated_pulse_threshold (sys_clk_hz pio_clk_div : float32)
    (m : positive) (e : Z) (d : DelaySet) :
  F32.div sys_clk_hz pio_clk_div = S754_finite false m e ->
  Gated.calculate_delays sys_clk_hz pio_clk_div = Some d ->
  ((F2R (Zpos m) e <= 999999)%R ->
   delay_A d = 0 /\ delay_B d = 0 /\ delay_C d = 0) /\
  ((1000001 <= F2R (Zpos m) e)%R ->
   1 <= delay_A d /\ 1 <= delay_B d /\ 1 <= delay_C d).
Proof.
  intros Hf Hd.
  unfold Gated.calculate_delays, Gated.cycles in Hd.
  apply obind_Some in Hd. destruct Hd as [cy [Hcy Hd]]. injection Hd as <-.
  apply obind_Some in Hcy. destruct Hcy as [c [Hc Hcy]]. injection Hcy as <-.
  destruct (pio_cycles_inv _ _ _ Hc) as (Ht & Ha & Hps).
  rewrite Hf in Ht, Ha.
  pose proof (to_uint32_range _ _ Ha) as Ra.
  destruct (gated_cast_bounds _ _ _ _ Ht Ha)
    as [Y [HY [HF [Ha1 [Ha2 _]]]]].
  pose proof eta_bounds as [Heta0 _]. pose proof eta_tiny as Heta.
  unfold delays_of_cycles, Gated.event_durations.
  cbn [delay_A delay_B delay_C delay_D cycles_A cycles_B cycles_C cycles_D].
  rewrite Hps.
  set (a := Gated.pulse_width_cycles c) in *.
  split; intros Hrange; rewrite HF in Hrange.
  - assert (Hlt : (IZR a < 5)%R) by lra.
    replace 5%R with (IZR 5) in Hlt by reflexivity. apply lt_IZR in Hlt.
    assert (Hz : sub_overhead a = 0).
    { unfold sub_overhead. destruct (4 <? a) eqn:E; [|reflexivity].
      apply Z.ltb_lt in E. lia. }
    rewrite Hz. tauto.
  - assert (Hlt : (4 < IZR a)%R) by lra.
    replace 4%R with (IZR 4) in Hlt by reflexivity. apply lt_IZR in Hlt.
    assert (Hz : 1 <= sub_overhead a).
    { pose proof (sub_overhead_plus_4 a Ra). lia. }
    tauto.
Qed.

Lemma gated_pulse_threshold_witness :
  ((F2R 10000000 0 <= 999999)%R ->
   46 = 0 /\ 46 = 0 /\ 46 = 0) /\
  ((1000001 <= F2R 10000000 0)%R ->
   1 <= 46 /\ 1 <= 46 /\ 1 <= 46).
Proof.
  apply (gated_pulse_threshold clk_sys_default lit_12_5 10000000%positive 0
           default_delays).
  - vm_compute. reflexivity.
  - vm_compute. reflexivity.
Defined.

(** X10: the gated calculation returns (none of its casts is undefined)
    for every clock and divider whose quotient, the tick frequency, is
    zero or a positive value up to 4 THz. *)
Theorem gated_calculate_delays_defined (sys_clk_hz pio_clk_div : float32) :
  (exists s, F32.div sys_clk_hz pio_clk_div = S754_zero s) \/
  (exists m e, F32.div sys_clk_hz pio_clk_div = S754_finite false m e /\
               (F2R (Zpos m) e <= 4000000000000)%R) ->
  exists d, Gated.calculate_delays sys_clk_hz pio_clk_div = Some d.
Proof.
  intros H. apply gated_pio_cycles_defined in H. destruct H as [c Hc].
  exists (delays_of_cycles (Gated.event_durations c)).
  unfold Gated.calculate_delays, Gated.cycles. rewrite Hc. reflexivity.
Qed.

Lemma gated_calculate_delays_defined_witness :
  exists d, Gated.calculate_delays clk_sys_default lit_12_5 = Some d.
Proof.
  apply (gated_calculate_delays_defined clk_sys_default lit_12_5).
  right. exists 10000000%positive, 0. split; [vm_compute; reflexivity|].
  unfold F2R. simpl. lra.
Defined.


(** X12: the two variants are not the same function: on a 133 MHz system
    clock, with [main]'s divider 12.5, the period is 10640 cycles and
    both formulas give raw counts of 53 for A, B and C, but the direct
    formula gives a raw D of 10480 and stores D = 10476, while the
    period-residual formula gives 10481 and stores D = 10477; the raw
    counts of the direct formula sum to 10639, one cycle short of the
    period. *)
Theorem variants_differ :
  Gated.pio_cycles (F32.of_Z 133000000) lit_12_5
  = Some {| Gated.total_pio_cycles := 10640;
            Gated.pulse_width_cycles := 53;
            Gated.phase_shift_cycles := 53 |} /\
  Continuous.cycles (F32.of_Z 133000000) lit_12_5
  = Some {| cycles_A := 53; cycles_B := 53; cycles_C := 53;
            cycles_D := 10480 |} /\
  Gated.cycles (F32.of_Z 133000000) lit_12_5
  = Some {| cycles_A := 53; cycles_B := 53; cycles_C := 53;
            cycles_D := 10481 |} /\
  Continuous.main_delays 133000000
  = Some {| delay_A := 49; delay_B := 49; delay_C := 49;
            delay_D := 10476 |} /\
  Gated.main_delays 133000000
  = Some {| delay_A := 49; delay_B := 49; delay_C := 49;
            delay_D := 10477 |} /\
  53 + 53 + 53 + 10480 = 10640 - 1.
Proof. repeat split; vm_compute; reflexivity. Qed.

(** ** Conversions and quotients in binary32 *)

Lemma Zdigits2_le (q k : Z) : 0 <= k -> 0 <= q < 2 ^ k -> Zdigits2 q <= k.
Proof.
  intros Hk Hq. destruct q as [|p|p]; simpl; try lia.
  pose proof (digits2_pos_bounds p) as [Hlo _].
  destruct (Z_le_gt_dec (Zpos (digits2_pos p)) k) as [|Hgt]; [assumption|].
  exfalso.
  assert (2 ^ k <= 2 ^ (Zpos (digits2_pos p) - 1)) by (apply Z.pow_le_mono_r; lia).
  lia.
Qed.

Lemma powerRZ2_neg (k : Z) : 0 <= k -> powerRZ 2 (- k) = (/ IZR (2 ^ k))%R.
Proof.
  intros Hk.
  assert (H : (powerRZ 2 (- k) * powerRZ 2 k = 1)%R).
  { rewrite <- powerRZ2_add. replace (- k + k) with 0 by lia. reflexivity. }
  rewrite <- (IZR_pow2 k) in H by exact Hk.
  assert (Hp : (0 < IZR (2 ^ k))%R).
  { apply IZR_lt. apply Z.pow_pos_nonneg; lia. }
  apply Rmult_eq_reg_r with (IZR (2 ^ k)); [|lra].
  rewrite H. field. lra.
Qed.

Lemma powerRZ2_max (a b : Z) :
  (powerRZ 2 (Z.max a b) <= powerRZ 2 a + powerRZ 2 b)%R.
Proof.
  pose proof (powerRZ2_pos a). pose proof (powerRZ2_pos b).
  destruct (Z.max_spec a b) as [[_ ->] | [_ ->]]; lra.
Qed.

Lemma F2R_nonneg (m e : Z) : 0 <= m -> (0 <= F2R m e)%R.
Proof.
  intros H. unfold F2R.
  apply Rmult_le_pos; [apply IZR_le; exact H | apply Rlt_le, powerRZ2_pos].
Qed.

Lemma F2R_shift_le (m e k : Z) :
  0 <= m -> 0 <= k -> (F2R (m / 2 ^ k) (e + k) <= F2R m e)%R.
Proof.
  intros Hm Hk. unfold F2R.
  pose proof (div_pow2_bracket m k Hk) as [H _].
  rewrite (Z.add_comm e k), powerRZ2_add, <- Rmult_assoc.
  apply Rmult_le_compat_r; [apply Rlt_le, powerRZ2_pos | exact H].
Qed.

(** Rounding a mantissa and exponent with any location: the result is
    packed from a mantissa whose value exceeds the input by at most one
    unit of the input exponent or of the target exponent. *)
Lemma binary_round_aux_upper (s : bool) (mx ex : Z) (l : location) :
  0 <= mx ->
  exists m3 e3,
    binary_round_aux F32.prec F32.emax s mx ex l = pack s m3 e3 /\
    0 <= m3 /\
    (F2R m3 e3 <= F2R mx ex + powerRZ 2 ex
                  + powerRZ 2 (fexp32 (Zdigits2 mx + ex)))%R.
Proof.
  intros Hmx. unfold binary_round_aux.
  (* first shift *)
  assert (H1 : exists mrs e1,
             shr_fexp F32.prec F32.emax mx ex l = (mrs, e1) /\
             0 <= shr_m mrs /\
             (F2R (shr_m mrs) e1 <= F2R mx ex)%R /\
             (powerRZ 2 e1 <= powerRZ 2 ex
                              + powerRZ 2 (fexp32 (Zdigits2 mx + ex)))%R).
  { pose proof (powerRZ2_pos ex). pose proof (powerRZ2_pos (fexp32 (Zdigits2 mx + ex))).
    destruct (Z_le_gt_dec (fexp32 (Zdigits2 mx + ex) - ex) 0) as [Hk | Hk].
    - exists (shr_record_of_loc mx l), ex.
      rewrite shr_fexp_keep by exact Hk. rewrite shr_record_of_loc_m.
      repeat split; [exact Hmx | lra | lra].
    - destruct (shr_fexp_shift mx ex l Hmx) as [mrs [E Hm]]; [lia|].
      exists mrs, (fexp32 (Zdigits2 mx + ex)).
      split; [exact E|]. rewrite Hm.
      split; [apply Z.div_pos; [lia | apply Z.pow_pos_nonneg; lia]|].
      split; [|lra].
      replace (fexp32 (Zdigits2 mx + ex))
        with (ex + (fexp32 (Zdigits2 mx + ex) - ex)) at 2 by lia.
      apply F2R_shift_le; lia. }
  destruct H1 as [mrs [e1 [E1 [Hm1 [Hv1 He1]]]]]. rewrite E1.
  set (m2 := round_nearest_even (shr_m mrs) (loc_of_shr_record mrs)).
  pose proof (round_nearest_even_range (shr_m mrs) (loc_of_shr_record mrs)) as Hr.
  fold m2 in Hr.
  assert (Hm2 : 0 <= m2) by lia.
  assert (Hv2 : (F2R m2 e1 <= F2R (shr_m mrs) e1 + powerRZ 2 e1)%R).
  { unfold F2R. pose proof (powerRZ2_pos e1).
    assert (IZR m2 <= IZR (shr_m mrs) + 1)%R.
    { replace 1%R with (IZR 1) by reflexivity. rewrite <- plus_IZR.
      apply IZR_le. lia. }
    assert (IZR m2 * powerRZ 2 e1 <= (IZR (shr_m mrs) + 1) * powerRZ 2 e1)%R
      by (apply Rmult_le_compat_r; lra).
    lra. }
  (* second shift *)
  assert (H2 : exists mrs2 e2,
             shr_fexp F32.prec F32.emax m2 e1 loc_Exact = (mrs2, e2) /\
             0 <= shr_m mrs2 /\
             (F2R (shr_m mrs2) e2 <= F2R m2 e1)%R).
  { destruct (Z_le_gt_dec (fexp32 (Zdigits2 m2 + e1) - e1) 0) as [Hk | Hk].
    - exists (shr_record_of_loc m2 loc_Exact), e1.
      rewrite shr_fexp_keep by exact Hk. simpl shr_m.
      repeat split; [exact Hm2 | lra].
    - destruct (shr_fexp_shift m2 e1 loc_Exact Hm2) as [mrs2 [E Hm]]; [lia|].
      exists mrs2, (fexp32 (Zdigits2 m2 + e1)).
      split; [exact E|]. rewrite Hm.
      split; [apply Z.div_pos; [lia | apply Z.pow_pos_nonneg; lia]|].
      replace (fexp32 (Zdigits2 m2 + e1))
        with (e1 + (fexp32 (Zdigits2 m2 + e1) - e1)) at 2 by lia.
      apply F2R_shift_le; lia. }
  destruct H2 as [mrs2 [e2 [E2 [Hm3 Hv3]]]]. rewrite E2.
  exists (shr_m mrs2), e2.
  split; [reflexivity|]. split; [exact Hm3 | lra].
Qed.

(** What [SFdiv_core_binary] computes for positive mantissas. *)
Lemma SFdiv_core_binary_spec (m1 : positive) (e1 : Z) (m2 : positive) (e2 : Z) :
  let d := Zpos (digits2_pos m1) + e1 - (Zpos (digits2_pos m2) + e2) in
  let e' := Z.min (fexp32 d) (e1 - e2) in
  exists l,
    SFdiv_core_binary F32.prec F32.emax (Zpos m1) e1 (Zpos m2) e2
    = (Zpos m1 * 2 ^ (e1 - e2 - e') / Zpos m2, e', l).
Proof.
  intros d e'. unfold SFdiv_core_binary.
  change (Zdigits2 (Zpos m1)) with (Zpos (digits2_pos m1)).
  change (Zdigits2 (Zpos m2)) with (Zpos (digits2_pos m2)).
  fold (fexp32 (Zpos (digits2_pos m1) + e1 - (Zpos (digits2_pos m2) + e2))).
  fold d. change (IntDef.Z.min (fexp32 d) (e1 - e2)) with e'.
  assert (Hs : 0 <= e1 - e2 - e') by (unfold e'; lia).
  set (m' := match e1 - e2 - e' with
             | 0 => Zpos m1
             | Zpos _ => IntDef.Z.shiftl (Zpos m1) (e1 - e2 - e')
             | Zneg _ => 0
             end).
  assert (Hm' : m' = Zpos m1 * 2 ^ (e1 - e2 - e')).
  { unfold m'. destruct (e1 - e2 - e') as [|k|k] eqn:E; try lia.
    change (IntDef.Z.shiftl (Zpos m1) (Zpos k)) with (Z.shiftl (Zpos m1) (Zpos k)).
    apply Z.shiftl_mul_pow2. lia. }
  change (IntDef.Z.div_eucl m' (Zpos m2)) with (Z.div_eucl m' (Zpos m2)).
  destruct (Z.div_eucl m' (Zpos m2)) as [q r] eqn:E.
  exists (new_location (Zpos m2) r).
  f_equal. f_equal. rewrite <- Hm'. unfold Z.div. rewrite E. reflexivity.
Qed.

Lemma quotient_digits (m1 m2 : positive) (s : Z) :
  0 <= s ->
  Zdigits2 (Zpos m1 * 2 ^ s / Zpos m2)
  <= Z.max 0 (Zpos (digits2_pos m1) + s - Zpos (digits2_pos m2) + 1).
Proof.
  intros Hs.
  set (d1 := Zpos (digits2_pos m1)). set (d2 := Zpos (digits2_pos m2)).
  set (k := Z.max 0 (d1 + s - d2 + 1)).
  set (q := Zpos m1 * 2 ^ s / Zpos m2).
  pose proof (digits2_pos_bounds m1) as [_ H1]. fold d1 in H1.
  pose proof (digits2_pos_bounds m2) as [H2 _]. fold d2 in H2.
  assert (Hd1 : 1 <= d1) by (unfold d1; lia).
  assert (Hd2 : 1 <= d2) by (unfold d2; lia).
  assert (Hps : 0 < 2 ^ s) by (apply Z.pow_pos_nonneg; lia).
  assert (Hq0 : 0 <= q)
    by (apply Z.div_pos; [apply Z.mul_nonneg_nonneg; lia | lia]).
  assert (Hqm : q * Zpos m2 <= Zpos m1 * 2 ^ s).
  { unfold q. rewrite Z.mul_comm. apply Z.mul_div_le. lia. }
  assert (Hlt : Zpos m1 * 2 ^ s < 2 ^ (d1 + s)).
  { rewrite Z.pow_add_r by lia. apply Z.mul_lt_mono_pos_r; assumption. }
  apply Zdigits2_le; [unfold k; lia|]. split; [exact Hq0|].
  destruct (Z_lt_ge_dec q (2 ^ k)) as [|Hge]; [assumption|]. exfalso.
  assert (Hk : 2 ^ (d1 + s) <= 2 ^ (k + (d2 - 1)))
    by (apply Z.pow_le_mono_r; unfold k; lia).
  rewrite (Z.pow_add_r 2 k (d2 - 1)) in Hk by (unfold k; lia).
  assert (2 ^ k * 2 ^ (d2 - 1) <= q * Zpos m2).
  { apply Z.mul_le_mono_nonneg; try lia; apply Z.pow_nonneg; lia. }
  apply (Z.lt_irrefl (2 ^ (d1 + s))).
  eapply Z.le_lt_trans; [exact Hk|].
  eapply Z.le_lt_trans; [eassumption|].
  eapply Z.le_lt_trans; [exact Hqm | exact Hlt].
Qed.

Lemma le_div_of_mul (a b c : R) : (0 < c -> a * c <= b -> a <= b / c)%R.
Proof.
  intros Hc H. unfold Rdiv.
  replace a with (a * c * / c)%R by (field; lra).
  apply Rmult_le_compat_r; [apply Rlt_le, Rinv_0_lt_compat; exact Hc | exact H].
Qed.

(** The quotient of two positive floats: an infinity only when the exact
    quotient is of the order of 2^105, otherwise a non-negative float
    that exceeds the exact quotient by a relative 3 * 2^-23 and two
    units of 2^-149 at most. *)
Lemma div_upper (m1 : positive) (e1 : Z) (m2 : positive) (e2 : Z) :
  let r := F32.div (S754_finite false m1 e1) (S754_finite false m2 e2) in
  let U := (F2R (Zpos m1) e1 / F2R (Zpos m2) e2 * (1 + 3 / 8388608)
            + 2 * eta)%R in
  (r = S754_infinity false /\ (powerRZ 2 105 <= U)%R) \/
  (signed_finite false r /\ (magnitude r <= U)%R).
Proof.
  intros r U.
  set (d1 := Zpos (digits2_pos m1)). set (d2 := Zpos (digits2_pos m2)).
  set (D := d1 + e1 - (d2 + e2)).
  set (e' := Z.min (fexp32 D) (e1 - e2)).
  set (s := e1 - e2 - e').
  set (q := Zpos m1 * 2 ^ s / Zpos m2).
  assert (Hs : 0 <= s) by (unfold s, e'; lia).
  destruct (SFdiv_core_binary_spec m1 e1 m2 e2) as [l E].
  fold d1 d2 D e' s q in E.
  assert (Hr : r = binary_round_aux F32.prec F32.emax false q e' l).
  { unfold r, F32.div, SFdiv. rewrite E. reflexivity. }
  assert (Hq0 : 0 <= q).
  { apply Z.div_pos; [|lia].
    apply Z.mul_nonneg_nonneg; [lia | apply Z.pow_nonneg; lia]. }
  destruct (binary_round_aux_upper false q e' l Hq0) as [m3 [e3 [Hp [Hm3 Hv]]]].
  rewrite <- Hr in Hp.
  (* the exact quotient *)
  set (A := F2R (Zpos m1) e1) in *. set (B := F2R (Zpos m2) e2) in *.
  assert (HB : (0 < B)%R).
  { unfold B, F2R. apply Rmult_lt_0_compat; [apply IZR_lt; lia | apply powerRZ2_pos]. }
  pose proof (digits2_pos_bounds m1) as [H1lo _]. fold d1 in H1lo.
  pose proof (digits2_pos_bounds m2) as [_ H2hi]. fold d2 in H2hi.
  assert (Hd1 : 1 <= d1) by (unfold d1; lia).
  assert (Hd2 : 1 <= d2) by (unfold d2; lia).
  assert (HQlo : (powerRZ 2 (D - 1) <= A / B)%R).
  { apply le_div_of_mul; [exact HB|].
    apply IZR_le in H1lo. rewrite IZR_pow2 in H1lo by lia.
    apply IZR_lt in H2hi. rewrite IZR_pow2 in H2hi by lia.
    assert (HA : (powerRZ 2 (d1 - 1 + e1) <= A)%R).
    { unfold A, F2R. rewrite powerRZ2_add.
      apply Rmult_le_compat_r; [apply Rlt_le, powerRZ2_pos | exact H1lo]. }
    assert (HBhi : (B <= powerRZ 2 (d2 + e2))%R).
    { unfold B, F2R. rewrite powerRZ2_add.
      apply Rmult_le_compat_r; [apply Rlt_le, powerRZ2_pos | lra]. }
    assert (Heq : (powerRZ 2 (D - 1) * powerRZ 2 (d2 + e2)
                   = powerRZ 2 (d1 - 1 + e1))%R).
    { rewrite <- powerRZ2_add. f_equal. unfold D. lia. }
    pose proof (powerRZ2_pos (D - 1)).
    assert (powerRZ 2 (D - 1) * B <= powerRZ 2 (D - 1) * powerRZ 2 (d2 + e2))%R
      by (apply Rmult_le_compat_l; lra).
    lra. }
  assert (Hqv : (F2R q e' <= A / B)%R).
  { apply le_div_of_mul; [exact HB|].
    assert (Hqm : q * Zpos m2 <= Zpos m1 * 2 ^ s).
    { unfold q. rewrite Z.mul_comm. apply Z.mul_div_le. lia. }
    apply IZR_le in Hqm. rewrite !mult_IZR, IZR_pow2 in Hqm by exact Hs.
    unfold A, B, F2R.
    replace e1 with (s + (e' + e2)) at 1 by (unfold s; lia).
    rewrite !powerRZ2_add.
    pose proof (powerRZ2_pos e'). pose proof (powerRZ2_pos e2).
    assert (IZR q * IZR (Zpos m2) * (powerRZ 2 e' * powerRZ 2 e2)
            <= IZR (Zpos m1) * powerRZ 2 s * (powerRZ 2 e' * powerRZ 2 e2))%R
      by (apply Rmult_le_compat_r;
          [apply Rlt_le, Rmult_lt_0_compat; lra | exact Hqm]).
    lra. }
  pose proof eta_bounds as [Heta _].
  assert (H23 : (powerRZ 2 (-23) = / 8388608)%R)
    by (exact (powerRZ2_neg 23 ltac:(lia))).
  assert (H22 : (powerRZ 2 (-22) = / 4194304)%R)
    by (exact (powerRZ2_neg 22 ltac:(lia))).
  assert (He' : (powerRZ 2 e' <= A / B / 8388608 + eta)%R).
  { eapply Rle_trans; [apply (powerRZ2_le e' (fexp32 D)); unfold e'; lia|].
    rewrite fexp32_eq.
    eapply Rle_trans; [apply powerRZ2_max|]. fold eta.
    replace (D - 24) with (D - 1 + -23) by lia.
    rewrite powerRZ2_add, H23. lra. }
  assert (Hu : (powerRZ 2 (fexp32 (Zdigits2 q + e'))
                <= A / B / 4194304 + eta)%R).
  { pose proof (quotient_digits m1 m2 s Hs) as Hdig.
    fold d1 d2 q in Hdig.
    assert (Hfe : fexp32 (Zdigits2 q + e') <= Z.max (D - 23) (-149)).
    { rewrite fexp32_eq.
      assert (He'D : e' <= Z.max (D - 24) (-149))
        by (unfold e'; rewrite fexp32_eq; lia).
      assert (Hse : s + e' = e1 - e2) by (unfold s; lia).
      assert (HD : D = d1 + e1 - (d2 + e2)) by reflexivity.
      lia. }
    eapply Rle_trans; [apply powerRZ2_le; exact Hfe|].
    eapply Rle_trans; [apply powerRZ2_max|]. fold eta.
    replace (D - 23) with (D - 1 + -22) by lia.
    rewrite powerRZ2_add, H22. lra. }
  assert (HU : (F2R m3 e3 <= U)%R) by (unfold U; lra).
  destruct (pack_cases false m3 e3 Hm3) as [[Hi Hbig] | [Hf Hmag]].
  - left. rewrite Hp. split; [exact Hi | lra].
  - right. rewrite Hp. split; [exact Hf | rewrite Hmag; exact HU].
Qed.

Lemma shl_align_value (mx : positive) (ex ex' : Z) :
  F2R (Zpos (fst (shl_align mx ex ex'))) (snd (shl_align mx ex ex'))
  = F2R (Zpos mx) ex.
Proof.
  unfold shl_align. destruct (ex' - ex) as [|d|d] eqn:E; try reflexivity.
  simpl fst. simpl snd.
  change (PosDef.Pos.iter xO mx d) with (shift_pos d mx).
  rewrite shift_pos_correct.
  change (Z.pow_pos 2 d) with (2 ^ Zpos d).
  assert (Hex : powerRZ 2 ex = (powerRZ 2 (Zpos d) * powerRZ 2 ex')%R)
    by (rewrite <- powerRZ2_add; f_equal; lia).
  unfold F2R. rewrite Hex, mult_IZR, IZR_pow2 by lia. ring.
Qed.

Lemma big_105 : (8589934592 <= powerRZ 2 105)%R.
Proof.
  eapply Rle_trans; [|apply (powerRZ2_le 33 105); lia].
  rewrite <- IZR_pow2 by lia. apply IZR_le. apply Z.leb_le. reflexivity.
Qed.

(** A [uint32_t] converted to [float] is a non-negative finite float, at
    most 2^32 up to rounding. *)
Lemma of_Z_u32 (n : Z) :
  0 <= n < u32_mod ->
  signed_finite false (F32.of_Z n) /\
  (magnitude (F32.of_Z n) <= 4300000000)%R.
Proof.
  intros Hn. destruct n as [|p|p]; [| |lia].
  - split; [constructor | simpl; lra].
  - unfold F32.of_Z, binary_normalize, binary_round.
    pose proof (shl_align_value p 0
                  (fexp F32.prec F32.emax (Zpos (digits2_pos p) + 0))) as Hv.
    destruct (shl_align p 0 (fexp F32.prec F32.emax (Zpos (digits2_pos p) + 0)))
      as [mz ez].
    simpl fst in Hv. simpl snd in Hv.
    pose proof (binary_round_aux_error false mz ez) as Hr. cbv zeta in Hr.
    rewrite Hv in Hr.
    assert (Hx : (F2R (Zpos p) 0 <= 4294967296)%R).
    { unfold F2R. simpl powerRZ. rewrite Rmult_1_r.
      apply IZR_le. unfold u32_mod in Hn. lia. }
    assert (Hx0 : (0 <= F2R (Zpos p) 0)%R) by (apply F2R_nonneg; lia).
    pose proof eta_bounds as Heta. pose proof big_105 as Hbig.
    destruct Hr as [[_ Hinf] | [Hf Hb]]; [exfalso; lra|].
    split; [exact Hf | lra].
Qed.

(** Dividing a non-negative finite float by a positive one. *)
Lemma div_signed_finite (x : float32) (m2 : positive) (e2 : Z) (M : R) :
  signed_finite false x ->
  (magnitude x <= M)%R ->
  (M / F2R (Zpos m2) e2 * (1 + 3 / 8388608) + 2 * eta < 8589934592)%R ->
  signed_finite false (F32.div x (S754_finite false m2 e2)) /\
  (magnitude (F32.div x (S754_finite false m2 e2))
   <= M / F2R (Zpos m2) e2 * (1 + 3 / 8388608) + 2 * eta)%R.
Proof.
  intros Hf HM Hsmall.
  set (B := F2R (Zpos m2) e2) in *.
  assert (HB : (0 < B)%R).
  { unfold B, F2R. apply Rmult_lt_0_compat; [apply IZR_lt; lia | apply powerRZ2_pos]. }
  pose proof eta_bounds as [Heta _].
  assert (Hinv : (0 < / B)%R) by (apply Rinv_0_lt_compat; exact HB).
  destruct Hf as [|m e].
  - split; [constructor|]. simpl magnitude in *.
    assert (0 <= M / B)%R by (unfold Rdiv; apply Rmult_le_pos; lra).
    assert (0 <= M / B * (3 / 8388608))%R by (apply Rmult_le_pos; lra).
    lra.
  - simpl magnitude in HM.
    pose proof (div_upper m e m2 e2) as H. cbv zeta in H. fold B in H.
    assert (HQ : (F2R (Zpos m) e / B <= M / B)%R)
      by (unfold Rdiv; apply Rmult_le_compat_r; lra).
    assert (HQ3 : (F2R (Zpos m) e / B * (3 / 8388608) <= M / B * (3 / 8388608))%R)
      by (apply Rmult_le_compat_r; lra).
    pose proof big_105 as Hbig.
    destruct H as [[_ Hinf] | [Hsf Hb]]; [exfalso; lra|].
    split; [exact Hsf | lra].
Qed.

(** Multiplying a positive constant by a non-negative finite float. *)
Lemma mul_signed_finite (mc : positive) (ec : Z) (x : float32) (M : R) :
  signed_finite false x ->
  (magnitude x <= M)%R ->
  (F2R (Zpos mc) ec * M * (1 + 1 / 8388608) + eta < 8589934592)%R ->
  signed_finite false (F32.mul (S754_finite false mc ec) x) /\
  (magnitude (F32.mul (S754_finite false mc ec) x)
   <= F2R (Zpos mc) ec * M * (1 + 1 / 8388608) + eta)%R.
Proof.
  intros Hf HM Hsmall.
  set (C := F2R (Zpos mc) ec) in *.
  assert (HC : (0 < C)%R).
  { unfold C, F2R. apply Rmult_lt_0_compat; [apply IZR_lt; lia | apply powerRZ2_pos]. }
  pose proof eta_bounds as [Heta _].
  destruct Hf as [|m e].
  - split; [constructor|]. simpl magnitude in *.
    assert (0 <= C * M)%R by (apply Rmult_le_pos; lra).
    assert (0 <= C * M * (1 / 8388608))%R by (apply Rmult_le_pos; lra).
    lra.
  - simpl magnitude in HM.
    change (F32.mul (S754_finite false mc ec) (S754_finite false m e))
      with (binary_round_aux F32.prec F32.emax false (Zpos (mc * m)) (ec + e) loc_Exact).
    pose proof (binary_round_aux_error false (mc * m) (ec + e)) as H.
    cbv zeta in H.
    assert (Hx : F2R (Zpos (mc * m)) (ec + e) = (C * F2R (Zpos m) e)%R).
    { unfold C, F2R. rewrite Pos2Z.inj_mul, mult_IZR, powerRZ2_add. ring. }
    rewrite Hx in H.
    assert (HCM : (C * F2R (Zpos m) e <= C * M)%R)
      by (apply Rmult_le_compat_l; lra).
    pose proof big_105 as Hbig.
    destruct H as [[_ Hinf] | [Hsf Hb]]; [exfalso; lra|].
    split; [exact Hsf | lra].
Qed.

Lemma lit_12_5_value : F2R 13107200 (-20) = 12.5%R.
Proof.
  unfold F2R. rewrite (powerRZ2_neg 20 ltac:(lia) : powerRZ 2 (-20) = _).
  change (IZR (2 ^ 20)) with 1048576%R. lra.
Qed.

Lemma lit_1e6_value : F2R 16000000 (-4) = 1000000%R.
Proof.
  unfold F2R. rewrite (powerRZ2_neg 4 ltac:(lia) : powerRZ 2 (-4) = _).
  change (IZR (2 ^ 4)) with 16%R. lra.
Qed.

Lemma lit_5_value : F2R 10485760 (-21) = 5%R.
Proof.
  unfold F2R. rewrite (powerRZ2_neg 21 ltac:(lia) : powerRZ 2 (-21) = _).
  change (IZR (2 ^ 21)) with 2097152%R. lra.
Qed.

Lemma lit_985_value : F2R 16138240 (-14) = 985%R.
Proof.
  unfold F2R. rewrite (powerRZ2_neg 14 ltac:(lia) : powerRZ 2 (-14) = _).
  change (IZR (2 ^ 14)) with 16384%R. lra.
Qed.

(** The tick frequency [main] computes from a [uint32_t] system clock and
    the divider 12.5 is a non-negative finite float below 350 MHz. *)
Lemma main_tick_frequency (clk_sys_hz : Z) :
  0 <= clk_sys_hz < u32_mod ->
  signed_finite false (F32.div (F32.of_Z clk_sys_hz) lit_12_5) /\
  (magnitude (F32.div (F32.of_Z clk_sys_hz) lit_12_5) <= 350000000)%R.
Proof.
  intros Hn. destruct (of_Z_u32 _ Hn) as [Hf HM].
  pose proof eta_bounds as Heta.
  destruct (div_signed_finite (F32.of_Z clk_sys_hz) 13107200 (-20)
              4300000000 Hf HM) as [Hsf Hb].
  - rewrite lit_12_5_value. lra.
  - rewrite lit_12_5_value in Hb. split; [exact Hsf|].
    unfold lit_12_5. lra.
Qed.

(** X13: for every value [clock_get_hz] can return, the call of the
    gated [calculate_delays] that [main] makes is defined: none of its
    three casts is out of range. *)
Theorem gated_main_delays_defined (clk_sys_hz : Z) :
  0 <= clk_sys_hz < u32_mod ->
  exists d, Gated.main_delays clk_sys_hz = Some d.
Proof.
  intros Hn. destruct (main_tick_frequency _ Hn) as [Hf HM].
  assert (Hc : exists c,
             Gated.pio_cycles (F32.of_Z clk_sys_hz) lit_12_5 = Some c).
  { apply gated_pio_cycles_defined.
    destruct Hf as [|m e].
    - left. exists false. congruence.
    - right. exists m, e. split; [congruence|].
      simpl magnitude in HM. lra. }
  destruct Hc as [c Hc].
  exists (delays_of_cycles (Gated.event_durations c)).
  unfold Gated.main_delays, Gated.calculate_delays, Gated.cycles.
  rewrite Hc. reflexivity.
Qed.

Lemma gated_main_delays_defined_witness :
  exists d, Gated.main_delays 133000000 = Some d.
Proof.
  apply (gated_main_delays_defined 133000000).
  unfold u32_mod. lia.
Defined.

Lemma period_us_value :
  F32.div lit_1e6 FREQUENCY_HZ = S754_finite false 16384000 (-14).
Proof. vm_compute. reflexivity. Qed.

Lemma duration_D_us_value :
  F32.sub (F32.sub (F32.sub (S754_finite false 16384000 (-14)) PULSE_WIDTH_US)
                   PHASE_SHIFT_US) PULSE_WIDTH_US
  = S754_finite false 16138240 (-14).
Proof. vm_compute. reflexivity. Qed.

(** X14: for every value [clock_get_hz] can return, the call of the
    continuous [calculate_delays] that [main] makes is defined: none of
    its four casts is out of range. *)
Theorem continuous_main_delays_defined (clk_sys_hz : Z) :
  0 <= clk_sys_hz < u32_mod ->
  exists d, Continuous.main_delays clk_sys_hz = Some d.
Proof.
  intros Hn. destruct (main_tick_frequency _ Hn) as [Hf HM].
  pose proof eta_bounds as Heta.
  unfold Continuous.main_delays, Continuous.calculate_delays, Continuous.cycles.
  rewrite period_us_value, duration_D_us_value.
  set (f := F32.div (F32.of_Z clk_sys_hz) lit_12_5) in *.
  destruct (div_signed_finite f 16000000 (-4) 350000000 Hf HM) as [Hg HMg].
  { rewrite lit_1e6_value. lra. }
  rewrite lit_1e6_value in HMg.
  change (S754_finite false 16000000 (-4)) with lit_1e6 in Hg, HMg.
  set (g := F32.div f lit_1e6) in *.
  assert (HMg' : (magnitude g <= 351)%R) by lra.
  destruct (mul_signed_finite 10485760 (-21) g 351 Hg HMg') as [H5 HM5].
  { rewrite lit_5_value. lra. }
  rewrite lit_5_value in HM5.
  destruct (mul_signed_finite 16138240 (-14) g 351 Hg HMg') as [HD HMD].
  { rewrite lit_985_value. lra. }
  rewrite lit_985_value in HMD.
  change (S754_finite false 10485760 (-21)) with PULSE_WIDTH_US in H5, HM5.
  destruct (to_uint32_defined _ H5) as [a Ha]; [lra|].
  destruct (to_uint32_defined _ HD) as [b Hb]; [lra|].
  change PHASE_SHIFT_US with PULSE_WIDTH_US.
  rewrite Ha, Hb. simpl. eexists. reflexivity.
Qed.

Lemma continuous_main_delays_defined_witness :
  exists d, Continuous.main_delays 133000000 = Some d.
Proof.
  apply (continuous_main_delays_defined 133000000).
  unfold u32_mod. lia.
Defined.

(** ** Reading the out-parameters back *)

Lemma store_delays_read (pA pB pC pD : addr) (d : DelaySet) (m : mem) :
  store_delays pA pB pC pD d m pD = delay_D d /\
  (pC <> pD -> store_delays pA pB pC pD d m pC = delay_C d) /\
  (pB <> pC -> pB <> pD -> store_delays pA pB pC pD d m pB = delay_B d) /\
  (pA <> pB -> pA <> pC -> pA <> pD ->
   store_delays pA pB pC pD d m pA = delay_A d).
Proof.
  unfold store_delays, store. repeat split.
  - rewrite Nat.eqb_refl. reflexivity.
  - intros H. apply Nat.eqb_neq in H. rewrite H, Nat.eqb_refl. reflexivity.
  - intros H1 H2. apply Nat.eqb_neq in H1, H2.
    rewrite H2, H1, Nat.eqb_refl. reflexivity.
  - intros H1 H2 H3. apply Nat.eqb_neq in H1, H2, H3.
    rewrite H3, H2, H1, Nat.eqb_refl. reflexivity.
Qed.

(** X15: in both variants, after a call of [calculate_delays] that
    returns, the location [delay_D] points to holds the D that variant
    computes, whatever the other pointers are, and each of the other
    three holds its value provided no pointer assigned after it is the
    same location: with four distinct pointers the caller reads back the
    whole DelaySet, and where two pointers alias the later assignment
    wins. *)
Theorem delays_read_back (sys_clk_hz pio_clk_div : float32)
    (pA pB pC pD : addr) (m m' : mem) :
  (Continuous.calculate_delays_mem sys_clk_hz pio_clk_div pA pB pC pD m
   = Some m' ->
   exists d,
     Continuous.calculate_delays sys_clk_hz pio_clk_div = Some d /\
     m' pD = delay_D d /\
     (pC <> pD -> m' pC = delay_C d) /\
     (pB <> pC -> pB <> pD -> m' pB = delay_B d) /\
     (pA <> pB -> pA <> pC -> pA <> pD -> m' pA = delay_A d)) /\
  (Gated.calculate_delays_mem sys_clk_hz pio_clk_div pA pB pC pD m
   = Some m' ->
   exists d,
     Gated.calculate_delays sys_clk_hz pio_clk_div = Some d /\
     m' pD = delay_D d /\
     (pC <> pD -> m' pC = delay_C d) /\
     (pB <> pC -> pB <> pD -> m' pB = delay_B d) /\
     (pA <> pB -> pA <> pC -> pA <> pD -> m' pA = delay_A d)).
Proof.
  split; intros H.
  - unfold Continuous.calculate_delays_mem in H.
    apply obind_Some in H. destruct H as [d [Hd H]]. injection H as <-.
    exists d. split; [exact Hd | apply store_delays_read].
  - unfold Gated.calculate_delays_mem in H.
    apply obind_Some in H. destruct H as [d [Hd H]]. injection H as <-.
    exists d. split; [exact Hd | apply store_delays_read].
Qed.

Lemma delays_read_back_witness :
  (exists d,
     Continuous.calculate_delays (F32.of_Z 133000000) lit_12_5 = Some d /\
     store_delays 0%nat 1%nat 2%nat 3%nat
       {| delay_A := 49; delay_B := 49; delay_C := 49; delay_D := 10476 |}
       (fun _ => 0) 3%nat = delay_D d /\
     (2%nat <> 3%nat ->
      store_delays 0%nat 1%nat 2%nat 3%nat
        {| delay_A := 49; delay_B := 49; delay_C := 49; delay_D := 10476 |}
        (fun _ => 0) 2%nat = delay_C d) /\
     (1%nat <> 2%nat -> 1%nat <> 3%nat ->
      store_delays 0%nat 1%nat 2%nat 3%nat
        {| delay_A := 49; delay_B := 49; delay_C := 49; delay_D := 10476 |}
        (fun _ => 0) 1%nat = delay_B d) /\
     (0%nat <> 1%nat -> 0%nat <> 2%nat -> 0%nat <> 3%nat ->
      store_delays 0%nat 1%nat 2%nat 3%nat
        {| delay_A := 49; delay_B := 49; delay_C := 49; delay_D := 10476 |}
        (fun _ => 0) 0%nat = delay_A d)) /\
  (exists d,
     Gated.calculate_delays (F32.of_Z 133000000) lit_12_5 = Some d /\
     store_delays 0%nat 1%nat 2%nat 3%nat
       {| delay_A := 49; delay_B := 49; delay_C := 49; delay_D := 10477 |}
       (fun _ => 0) 3%nat = delay_D d /\
     (2%nat <> 3%nat ->
      store_delays 0%nat 1%nat 2%nat 3%nat
        {| delay_A := 49; delay_B := 49; delay_C := 49; delay_D := 10477 |}
        (fun _ => 0) 2%nat = delay_C d) /\
     (1%nat <> 2%nat -> 1%nat <> 3%nat ->
      store_delays 0%nat 1%nat 2%nat 3%nat
        {| delay_A := 49; delay_B := 49; delay_C := 49; delay_D := 10477 |}
        (fun _ => 0) 1%nat = delay_B d) /\
     (0%nat <> 1%nat -> 0%nat <> 2%nat -> 0%nat <> 3%nat ->
      store_delays 0%nat 1%nat 2%nat 3%nat
        {| delay_A := 49; delay_B := 49; delay_C := 49; delay_D := 10477 |}
        (fun _ => 0) 0%nat = delay_A d)).
Proof.
  split.
  - apply (proj1 (delays_read_back (F32.of_Z 133000000) lit_12_5
                    0%nat 1%nat 2%nat 3%nat (fun _ => 0)
                    (store_delays 0%nat 1%nat 2%nat 3%nat
                       {| delay_A := 49; delay_B := 49; delay_C := 49;
                          delay_D := 10476 |} (fun _ => 0)))).
    vm_compute. reflexivity.
  - apply (proj2 (delays_read_back (F32.of_Z 133000000) lit_12_5
                    0%nat 1%nat 2%nat 3%nat (fun _ => 0)
                    (store_delays 0%nat 1%nat 2%nat 3%nat
                       {| delay_A := 49; delay_B := 49; delay_C := 49;
                          delay_D := 10477 |} (fun _ => 0)))).
    vm_compute. reflexivity.
Defined.
